(** * common/jinja2.py: the Jinja environment of the service dashboard

    A shallow embedding of [src/common/jinja2.py]: the Nunjucks source
    preprocessor ([GovukFrontendExtension.preprocess]), the environment
    class and factory ([GovukFrontendEnvironment], [environment]) and the
    two template helpers ([break_words], [query_transform]).

    Template text is a [string]; a character is an 8-bit code point.
    Python dictionaries are [gmap]s where only lookups matter and
    association lists where the iteration order is observable. *)

From Stdlib Require Import String Ascii List Bool Arith Lia.
From stdpp Require Import base option gmap strings list fin_maps.
Import ListNotations.
Open Scope string_scope.

(* Concatenation of literals should compute under [simpl]. *)
#[global] Arguments String.append !_ _ : simpl nomatch.

(** ** Text primitives *)

Module Text.

(** [s.startswith(p)] *)
Fixpoint startswith (p s : string) : bool :=
  match p, s with
  | EmptyString, _ => true
  | String a p', String b s' => Ascii.eqb a b && startswith p' s'
  | String _ _, EmptyString => false
  end.

(** [s.endswith(p)] *)
Fixpoint endswith (s p : string) : bool :=
  if String.eqb s p then true
  else match s with
       | EmptyString => false
       | String _ s' => endswith s' p
       end.

(** [w in s] for strings *)
Fixpoint contains (w s : string) : bool :=
  startswith w s ||
  match s with
  | EmptyString => false
  | String _ s' => contains w s'
  end.

(** [c in s] for a single character *)
Fixpoint mem (c : ascii) (s : string) : bool :=
  match s with
  | EmptyString => false
  | String d s' => Ascii.eqb c d || mem c s'
  end.

(** [sep.join(l)] *)
Fixpoint join (sep : string) (l : list string) : string :=
  match l with
  | [] => ""
  | [x] => x
  | x :: rest => x ++ sep ++ join sep rest
  end.

End Text.

(** ** The fragment of [re] the module uses

    [re.sub] and [str.replace] both scan the subject from left to right,
    replacing each leftmost match and resuming right after it.  A matcher
    looks at the text at the current position and, when the pattern
    matches there, gives the replacement text and the number of
    characters the match consumes. *)

Module Re.

Definition matcher := string -> option (string * nat).

(** The scan.  [skip] counts the characters of the previous match still
    to be passed over; no match can start on them.  The patterns of this
    module never match the empty text; a matcher that did would have its
    replacement put in front of the character, which is then copied. *)
Fixpoint scan (m : matcher) (skip : nat) (s : string) : string :=
  match s with
  | EmptyString => EmptyString
  | String c s' =>
      match skip with
      | S k => scan m k s'
      | O =>
          match m s with
          | Some (r, S k) => r ++ scan m k s'
          | Some (r, O) => r ++ String c (scan m 0 s')
          | None => String c (scan m 0 s')
          end
      end
  end.

Definition sub (m : matcher) (s : string) : string := scan m 0 s.

(** One position of a pattern without repetition: a literal character,
    or [.], which matches every character but the newline. *)
Inductive pchar := Lit (c : ascii) | Dot.

Definition pattern := list pchar.

Definition newline : ascii := Ascii.ascii_of_nat 10.

Definition pchar_matches (p : pchar) (c : ascii) : bool :=
  match p with
  | Lit a => Ascii.eqb a c
  | Dot => negb (Ascii.eqb c newline)
  end.

(** Compilation of a pattern string whose only metacharacter is [.]. *)
Fixpoint compile (r : string) : pattern :=
  match r with
  | EmptyString => []
  | String c r' => (if Ascii.eqb c "." then Dot else Lit c) :: compile r'
  end.

(** The pattern of an escaped or plain literal text. *)
Fixpoint literal (t : string) : pattern :=
  match t with
  | EmptyString => []
  | String c t' => Lit c :: literal t'
  end.

(** Match a pattern at the start of [s]: the matched text and the rest. *)
Fixpoint match_here (p : pattern) (s : string) : option (string * string) :=
  match p with
  | [] => Some (EmptyString, s)
  | pc :: p' =>
      match s with
      | EmptyString => None
      | String c s' =>
          if pchar_matches pc c then
            match match_here p' s' with
            | Some (g, rest) => Some (String c g, rest)
            | None => None
            end
          else None
      end
  end.

(** An alternation [(a1|a2|...)] followed by the rest of the pattern,
    [k]: alternatives are tried in order, and the first one after which
    [k] matches too is taken.  The result is the text of the group and
    the text of the tail. *)
Fixpoint match_alt (alts : list pattern) (k : pattern) (s : string)
  : option (string * string) :=
  match alts with
  | [] => None
  | a :: alts' =>
      match match_here a s with
      | Some (g, rest) =>
          match match_here k rest with
          | Some (t, _) => Some (g, t)
          | None => match_alt alts' k s
          end
      | None => match_alt alts' k s
      end
  end.

(** *** Where matches can lie

    The patterns of this module have a fixed length, which makes the
    question whether a match can overlap a given text decidable. *)

(** The pattern matches at the start of the text. *)
Definition fits (p : pattern) (s : string) : bool :=
  match match_here p s with Some _ => true | None => false end.

(** The pattern agrees with the text on the positions both have. *)
Fixpoint compat (p : pattern) (w : string) : bool :=
  match p, w with
  | pc :: p', String c w' => pchar_matches pc c && compat p' w'
  | _, _ => true
  end.

(** No match that starts before an occurrence of [w] reaches into it. *)
Definition clear_left (pats : list pattern) (w : string) : bool :=
  forallb (fun p =>
    forallb (fun k => negb (compat (skipn k p) w))
            (seq 1 (List.length p - 1))) pats.

(** No match starts inside an occurrence of [w]. *)
Fixpoint clear_inside (pats : list pattern) (w : string) : bool :=
  match w with
  | EmptyString => true
  | String _ w' =>
      forallb (fun p => negb (compat p w)) pats && clear_inside pats w'
  end.

(** No position of the pattern matches the newline. *)
Definition newline_free (p : pattern) : bool :=
  forallb (fun pc => negb (pchar_matches pc newline)) p.

(** The matcher matches at some position of the text. *)
Fixpoint fires (m : matcher) (s : string) : bool :=
  match m s with
  | Some _ => true
  | None =>
      match s with
      | EmptyString => false
      | String _ s' => fires m s'
      end
  end.

(** Every match of [m] is a match of one of the fixed-length patterns. *)
Definition bounded_by (pats : list pattern) (m : matcher) : Prop :=
  forall s r n, m s = Some (r, n) ->
  exists p, In p pats /\ n = List.length p /\ fits p s = true.

End Re.

(** ** [GovukFrontendExtension] *)

Module Preprocessor.
Import Text Re.

(** [iterated_objects] *)
Definition iterated_objects : list string :=
  [ "item.attributes" ].

(** [nested_attrs] *)
Definition nested_attrs : list string :=
  [ "cell.attributes";
    "item.conditional";
    "item.hint";
    "item.label";
    "params.attributes";
    "params.countMessage";
    "params.formGroup";
    "params.legend";
    "params.prefix";
    "params.suffix" ].

(** [r"(for attribute, value in )(" + "|".join(iterated_objects) + r")"]
    with the replacement [r"\1(\2|default({}))"]. *)
Definition iterated_fix : matcher := fun s =>
  match match_here (compile "for attribute, value in ") s with
  | Some (g1, rest) =>
      match match_alt (map compile iterated_objects) [] rest with
      | Some (g2, _) =>
          Some (g1 ++ "(" ++ g2 ++ "|default({}))",
                String.length g1 + String.length g2)
      | None => None
      end
  | None => None
  end.

(** [r"(" + "|".join(nested_attrs) + r")\."] with the replacement
    [r"(\1|default({}))."]. *)
Definition nested_fix : matcher := fun s =>
  match match_alt (map compile nested_attrs) (literal ".") s with
  | Some (g1, t) =>
      Some ("(" ++ g1 ++ "|default({})).",
            String.length g1 + String.length t)
  | None => None
  end.

(** [str.replace(old, new)] for a non-empty [old]. *)
Definition literally (old new : string) : matcher := fun s =>
  if startswith old s then Some (new, String.length old) else None.

Definition replace (old new s : string) : string :=
  sub (literally old new) s.

Definition concat_old : string := "+ (params.maxlength or params.maxwords) +".
Definition concat_new : string := "~ (params.maxlength or params.maxwords) ~".

(** The three fixes of the [.njk] branch, in the order of the source. *)
Definition njk_fixes (source : string) : string :=
  let source := sub iterated_fix source in
  let source := sub nested_fix source in
  replace concat_old concat_new source.

(** [if filename and filename.endswith(".njk")] *)
Definition is_njk (filename : option string) : bool :=
  match filename with
  | None => false
  | Some f => negb (String.eqb f "") && endswith f ".njk"
  end.

Section Preprocess.

(** [NunjucksExtension.preprocess] of govuk_frontend_jinja, the
    superclass method: source, name and filename to source. *)
Variable super_preprocess : string -> string -> option string -> string.

(** [GovukFrontendExtension.preprocess] *)
Definition preprocess (source name : string) (filename : option string)
  : string :=
  if is_njk filename then
    let source := super_preprocess source name filename in
    njk_fixes source
  else source.

End Preprocess.

(** The fixed-length patterns behind the three substitutions. *)
Definition iterated_pats : list pattern :=
  map (fun a => compile "for attribute, value in " ++ compile a)%list
      iterated_objects.

Definition nested_pats : list pattern :=
  map (fun a => compile a ++ literal ".")%list nested_attrs.

Definition concat_pats : list pattern := [literal concat_old].

(** A guarded expression, as the two regex rules write it. *)
Definition guarded (expr : string) : string := "(" ++ expr ++ "|default({}))".

(** A dotted name spelled with [c] in place of its dots. *)
Fixpoint respell (c : ascii) (name : string) : string :=
  match name with
  | EmptyString => EmptyString
  | String x name' =>
      String (if Ascii.eqb x "." then c else x) (respell c name')
  end.

(** An upstream step of the expected shape, for examples: keyed on the
    template name, it turns Nunjucks' [elseif] into [elif]. *)
Definition name_keyed_upstream (source name : string)
    (filename : option string) : string :=
  if endswith name ".njk" then replace "elseif" "elif" source else source.

(** An upstream step that leaves the source as it is. *)
Definition passthrough (source name : string) (filename : option string)
  : string := source.

End Preprocessor.

(** ** [break_words] *)

Module Helpers.
Import Text Re.

(** [markupsafe.Markup]: a string marked as safe to emit verbatim. *)
Inductive Markup := MkMarkup (s : string).

Definition in_range (lo hi n : nat) : bool :=
  ((lo <=? n) && (n <=? hi))%nat.

(** [\w] of a [str] pattern on the code points below 256: letters,
    digits and other numerics, and the underscore. *)
Definition word_char (c : ascii) : bool :=
  let n := nat_of_ascii c in
  (in_range 48 57 n || in_range 65 90 n || (n =? 95) || in_range 97 122 n
   || (n =? 170) || (n =? 178) || (n =? 179) || (n =? 181) || (n =? 185)
   || (n =? 186) || in_range 188 190 n || in_range 192 214 n
   || in_range 216 246 n || in_range 248 255 n)%nat.

(** The longest prefix of characters satisfying [f]. *)
Fixpoint span (f : ascii -> bool) (s : string) : string :=
  match s with
  | EmptyString => EmptyString
  | String c s' => if f c then String c (span f s') else EmptyString
  end.

Definition zwsp : string := "&#8203;".

(** [r"([^\w]+)"] with the replacement [r"&#8203;\1&#8203;"]: the
    repetition is greedy, so the group is the whole run. *)
Definition non_word_run : matcher := fun s =>
  match span (fun c => negb (word_char c)) s with
  | EmptyString => None
  | g => Some (zwsp ++ g ++ zwsp, String.length g)
  end.

(** [markupsafe.escape] of a plain [str]. *)
Definition escape_char (c : ascii) : string :=
  if Ascii.eqb c "&" then "&amp;"
  else if Ascii.eqb c ">" then "&gt;"
  else if Ascii.eqb c "<" then "&lt;"
  else if Ascii.eqb c "'" then "&#39;"
  else if Ascii.eqb c (ascii_of_nat 34) then "&#34;"
  else String c EmptyString.

Fixpoint escape (s : string) : string :=
  match s with
  | EmptyString => EmptyString
  | String c s' => escape_char c ++ escape s'
  end.

(** What can be passed as [word]: a plain [str], or a [Markup], which
    is a [str] as well. *)
Inductive Word := Plain (s : string) | Safe (m : Markup).

Definition word_text (word : Word) : string :=
  match word with
  | Plain s => s
  | Safe (MkMarkup s) => s
  end.

(** The same pattern and replacement on a [Markup] subject.  [re.sub]
    puts the pieces of the replacement together with the [join] of the
    subject's own class ([sre_parse.expand_template], Python up to
    3.11); the two literals of the template and the group are plain
    strings, and [Markup.join] escapes every plain string it joins. *)
Definition non_word_run_escaped : matcher := fun s =>
  match span (fun c => negb (word_char c)) s with
  | EmptyString => None
  | g => Some (escape zwsp ++ escape g ++ escape zwsp, String.length g)
  end.

(** [break_words(word)]: the text [re.sub] puts together is a plain
    string again, which [Markup(...)] marks as safe as it is. *)
Definition break_words (word : Word) : Markup :=
  match word with
  | Plain s => MkMarkup (sub non_word_run s)
  | Safe (MkMarkup s) => MkMarkup (sub non_word_run_escaped s)
  end.

(** *** The description of [break_words], for comparison

    The word is cut into its maximal runs of word characters and of
    other characters; each run of other characters gets the marker
    before and after it. *)

(** The runs of a text, each with the class of its characters
    ([true] for word characters). *)
Fixpoint runs (s : string) : list (bool * string) :=
  match s with
  | EmptyString => []
  | String c s' =>
      match runs s' with
      | (k, r) :: rest =>
          if Bool.eqb (word_char c) k then (k, String c r) :: rest
          else (word_char c, String c "") :: (k, r) :: rest
      | [] => [(word_char c, String c "")]
      end
  end.

Definition mark_run (run : bool * string) : string :=
  let '(k, r) := run in if k then r else zwsp ++ r ++ zwsp.

Fixpoint flatten (l : list string) : string :=
  match l with
  | [] => ""
  | x :: l' => x ++ flatten l'
  end.

Definition marked_runs (word : string) : string :=
  flatten (map mark_run (runs word)).

Fixpoint all_chars (f : ascii -> bool) (s : string) : bool :=
  match s with
  | EmptyString => true
  | String c s' => f c && all_chars f s'
  end.

(** A run is not empty and its characters are all of its class. *)
Definition is_run (run : bool * string) : bool :=
  let '(k, r) := run in
  negb (String.eqb r "") && all_chars (fun c => Bool.eqb (word_char c) k) r.

(** Neighbouring runs differ in class, so that no run can be extended. *)
Fixpoint alternating (l : list (bool * string)) : bool :=
  match l with
  | (k1, _) :: (((k2, _) :: _) as tl) => negb (Bool.eqb k1 k2) && alternating tl
  | _ => true
  end.

(** The text inside a [Markup]. *)
Definition markup_text (m : Markup) : string := let 'MkMarkup s := m in s.

(** The first and the last character of a text satisfy [f]. *)
Definition first_is (f : ascii -> bool) (s : string) : bool :=
  match s with
  | EmptyString => false
  | String c _ => f c
  end.

Fixpoint last_is (f : ascii -> bool) (s : string) : bool :=
  match s with
  | EmptyString => false
  | String c EmptyString => f c
  | String _ s' => last_is f s'
  end.

End Helpers.

(** ** Objects on a heap

    Python objects that are mutated after they are shared live in a
    heap: a list of objects, an object's reference being its index.
    Code that runs against the heap is a state function that can fail. *)

Module Heap.

Definition loc := nat.

Definition M (S A : Type) : Type := S -> option (A * S).

Definition ret {S A} (a : A) : M S A := fun s => Some (a, s).

Definition bind {S A B} (c : M S A) (k : A -> M S B) : M S B :=
  fun s => match c s with
           | Some (a, s') => k a s'
           | None => None
           end.

Definition fail {S A} : M S A := fun _ => None.

(** [for x in xs: body(x)] *)
Fixpoint for_each {S A} (xs : list A) (body : A -> M S unit) : M S unit :=
  match xs with
  | [] => ret tt
  | x :: xs' => bind (body x) (fun _ => for_each xs' body)
  end.

End Heap.

Declare Scope heap_scope.
Delimit Scope heap_scope with heap.
Notation "'let*' x := c 'in' k" := (Heap.bind c (fun x => k))
  (at level 10, x pattern, c at level 100, k at level 200) : heap_scope.
Notation "c ;; k" := (Heap.bind c (fun _ => k))
  (at level 100, right associativity) : heap_scope.

(** ** [query_transform] *)

Module Query.
Import Text Heap.

(** ['%XX'] for one byte, with upper-case digits. *)
Definition hex_digit (n : nat) : ascii :=
  ascii_of_nat (if (n <? 10)%nat then 48 + n else 55 + n).

Definition percent (c : ascii) : string :=
  let n := nat_of_ascii c in
  String "%" (String (hex_digit (n / 16)) (String (hex_digit (n mod 16)) "")).

(** The bytes [urllib.parse.quote] never escapes. *)
Definition always_safe (c : ascii) : bool :=
  let n := nat_of_ascii c in
  (((48 <=? n) && (n <=? 57)) || ((65 <=? n) && (n <=? 90))
   || ((97 <=? n) && (n <=? 122))
   || (n =? 95) || (n =? 46) || (n =? 45) || (n =? 126))%nat.

(** [urllib.parse.quote_plus] on the bytes of a key or value. *)
Fixpoint quote_plus (s : string) : string :=
  match s with
  | EmptyString => EmptyString
  | String c s' =>
      (if always_safe c then String c EmptyString
       else if Ascii.eqb c " " then "+"
       else percent c) ++ quote_plus s'
  end.

(** A [QueryDict]: keys in insertion order, each with its list of values. *)
Definition QueryDict := list (string * list string).

(** [q.getlist(key)] *)
Fixpoint getlist (q : QueryDict) (key : string) : list string :=
  match q with
  | [] => []
  | (k, vs) :: q' => if String.eqb k key then vs else getlist q' key
  end.

(** [q[key] = value]: the key's list becomes [[value]]; a key already
    present keeps its place, a new one goes last. *)
Fixpoint setitem (q : QueryDict) (key value : string) : QueryDict :=
  match q with
  | [] => [(key, [value])]
  | (k, vs) :: q' =>
      if String.eqb k key then (k, [value]) :: q'
      else (k, vs) :: setitem q' key value
  end.

(** [q.urlencode()]: one [key=value] per value, joined by [&]. *)
Definition urlencode (q : QueryDict) : string :=
  join "&"
    (flat_map (fun '(k, vs) =>
                 map (fun v => quote_plus k ++ "=" ++ quote_plus v) vs) q).

(** The assignments [q[key] = value] for all of [kwargs], in order. *)
Definition assign_all (q : QueryDict) (kwargs : list (string * string))
  : QueryDict :=
  fold_left (fun q kv => setitem q kv.1 kv.2) kwargs q.

(** [list(q.keys())] and [key in q] *)
Definition keys (q : QueryDict) : list string := map fst q.

Definition has_key (q : QueryDict) (key : string) : bool :=
  existsb (String.eqb key) (keys q).

(** The number of values in a mapping, over all keys. *)
Definition values_total (q : QueryDict) : nat :=
  list_sum (map (fun kv => length kv.2) q).

(** [s.count(c)] for a single character *)
Fixpoint count (c : ascii) (s : string) : nat :=
  match s with
  | EmptyString => 0
  | String d s' => (if Ascii.eqb c d then 1 else 0) + count c s'
  end.

(** *** Reading a query string, for comparison

    What it is for a string to be the URL-encoding of a mapping: read
    as a query string, it gives the mapping's keys and values back. *)

(** The value of a hexadecimal digit. *)
Definition hex_value (c : ascii) : option nat :=
  let n := nat_of_ascii c in
  if ((48 <=? n) && (n <=? 57))%nat then Some (n - 48)
  else if ((65 <=? n) && (n <=? 70))%nat then Some (n - 55)
  else if ((97 <=? n) && (n <=? 102))%nat then Some (n - 87)
  else None.

(** [urllib.parse.unquote_plus]: [+] is a space, [%XX] the byte [XX],
    and a [%] that two hexadecimal digits do not follow stays. *)
Fixpoint unquote_plus (s : string) : string :=
  match s with
  | EmptyString => EmptyString
  | String c s' =>
      if Ascii.eqb c "+" then String " " (unquote_plus s')
      else if Ascii.eqb c "%" then
        match s' with
        | String h1 (String h2 s'') =>
            match hex_value h1, hex_value h2 with
            | Some a, Some b =>
                String (ascii_of_nat (16 * a + b)) (unquote_plus s'')
            | _, _ => String c (unquote_plus s')
            end
        | _ => String c (unquote_plus s')
        end
      else String c (unquote_plus s')
  end.

(** [s.split(sep)] for a single character *)
Fixpoint split_on (sep : ascii) (s : string) : list string :=
  match s with
  | EmptyString => [EmptyString]
  | String c s' =>
      if Ascii.eqb c sep then EmptyString :: split_on sep s'
      else match split_on sep s' with
           | x :: xs => String c x :: xs
           | [] => [String c EmptyString]
           end
  end.

(** [s.split(sep, 1)]: the text before the first [sep], and the text
    after it when there is one. *)
Fixpoint partition_at (sep : ascii) (s : string) : string * option string :=
  match s with
  | EmptyString => (EmptyString, None)
  | String c s' =>
      if Ascii.eqb c sep then (EmptyString, Some s')
      else let '(a, r) := partition_at sep s' in (String c a, r)
  end.

(** One [name=value] of a query string; an empty one is passed over and
    a name without [=] has the empty value. *)
Definition parse_pair (piece : string) : list (string * string) :=
  if String.eqb piece "" then []
  else
    let '(name, value) := partition_at "=" piece in
    [(unquote_plus name,
      unquote_plus match value with Some v => v | None => "" end)].

(** [urllib.parse.parse_qsl(s, keep_blank_values=True)] *)
Definition parse_qsl (s : string) : list (string * string) :=
  flat_map parse_pair (split_on "&" s).

(** [[(k, v) for k, vs in q.lists() for v in vs]] *)
Definition items (q : QueryDict) : list (string * string) :=
  flat_map (fun kvs => map (pair kvs.1) kvs.2) q.


(** The heap of the query mappings. *)
Abbreviation heap := (list QueryDict).

(** A request: [request.GET] refers to a [QueryDict] on the heap. *)
Record HttpRequest := { GET : loc }.

Local Open Scope heap_scope.

Definition deref (l : loc) : M heap QueryDict :=
  fun h => match h !! l with
           | Some q => Some (q, h)
           | None => None
           end.

(** [q.copy()]: a new object with the same contents. *)
Definition copy (l : loc) : M heap loc :=
  let* q := deref l in
  fun h => Some (length h, (h ++ [q])%list).

(** [q[key] = value] on the object at [l]. *)
Definition store_item (l : loc) (key value : string) : M heap unit :=
  let* q := deref l in
  fun h => Some (tt, <[l := setitem q key value]> h).

(** [query_transform(request, **kwargs)] *)
Definition query_transform (request : HttpRequest)
    (kwargs : list (string * string)) : M heap string :=
  let* updated := copy (GET request) in
  for_each kwargs (fun '(key, value) => store_item updated key value) ;;
  let* q := deref updated in
  ret (urlencode q).

End Query.

(** ** [GovukFrontendEnvironment] and [environment] *)

Module Env.
Import Heap.

(** Extension classes that can be installed in an environment. *)
Inductive Extension :=
  | GovukFrontendExtension
  | NunjucksExtension
  | OtherExtension (name : string).

(** Values of keyword arguments: the list under ["extensions"] and
    everything else (loader, autoescape, ...), which this module only
    forwards. *)
Inductive KwVal :=
  | KwExtensions (l : list Extension)
  | KwOpaque (repr : string).

(** The functions and objects the module registers. *)
Inductive Callable :=
  | fn_break_words
  | fn_query_transform
  | fn_render_crispy_form
  | fn_get_messages
  | fn_localtime
  | fn_pluralize
  | fn_static
  | fn_reverse
  | fn_webpack_static
  | fn_render_bundle.

(** Values of the filter and global tables.  [VPartial f l] is
    [partial(f, d)] where [d] is the globals dictionary of the
    environment at [l]; [VBuiltin] is an entry the underlying
    constructor provides. *)
Inductive Value :=
  | VStr (s : string)
  | VCallable (f : Callable)
  | VSettings
  | VPartial (f : Callable) (globals_of : loc)
  | VBuiltin (name : string).

(** An environment object. *)
Record Environment := {
  extensions : list Extension;
  filters : gmap string Value;
  globals : gmap string Value;
}.

(** The process: [os.environ] and the environments built so far. *)
Record World := {
  os_environ : gmap string string;
  envs : list Environment;
}.

(** [d.setdefault(key, default)] *)
Definition setdefault {V} (key : string) (default : V) (d : gmap string V)
  : gmap string V :=
  match d !! key with
  | Some _ => d
  | None => <[key := default]> d
  end.

(** [d.update({k1: v1, ...})] *)
Definition update {V} (entries : list (string * V)) (d : gmap string V)
  : gmap string V :=
  foldl (fun d kv => <[kv.1 := kv.2]> d) d entries.

(** [os.environ.get(key, default)] *)
Definition os_environ_get (key default : string) : M World string :=
  fun w => Some (match os_environ w !! key with
                 | Some v => v
                 | None => default
                 end, w).

Local Open Scope heap_scope.

(** A new object on the heap. *)
Definition alloc (e : Environment) : M World loc :=
  fun w => Some (length (envs w),
                 {| os_environ := os_environ w;
                    envs := (envs w ++ [e])%list |}).

(** In-place change of the object at [l]. *)
Definition modify (l : loc) (f : Environment -> Environment) : M World unit :=
  fun w => match envs w !! l with
           | Some e => Some (tt, {| os_environ := os_environ w;
                                    envs := <[l := f e]> (envs w) |})
           | None => None
           end.

Definition with_filters (f : gmap string Value -> gmap string Value)
    (e : Environment) : Environment :=
  {| extensions := extensions e; filters := f (filters e);
     globals := globals e |}.

Definition with_globals (f : gmap string Value -> gmap string Value)
    (e : Environment) : Environment :=
  {| extensions := extensions e; filters := filters e;
     globals := f (globals e) |}.

Section Upstream.

(** The filter and global tables every environment of the underlying
    library starts with. *)
Variable default_filters default_globals : gmap string Value.

(** [govuk_frontend_jinja.templates.Environment.__init__] on [kwargs]: the
    extensions given under ["extensions"] are installed ([NunjucksExtension]
    when the key is absent, an error when the value is not a list); the
    tables start from the library's defaults. *)
Definition Environment_init (kwargs : gmap string KwVal) : M World loc :=
  match kwargs !! "extensions" with
  | Some (KwExtensions l) =>
      alloc {| extensions := l; filters := default_filters;
               globals := default_globals |}
  | Some (KwOpaque _) => fail
  | None =>
      alloc {| extensions := [NunjucksExtension]; filters := default_filters;
               globals := default_globals |}
  end.

(** [GovukFrontendEnvironment.__init__] on [kwargs] *)
Definition GovukFrontendEnvironment (kwargs : gmap string KwVal)
  : M World loc :=
  let kwargs :=
    setdefault "extensions" (KwExtensions [GovukFrontendExtension]) kwargs in
  Environment_init kwargs.

(** [environment] on [kwargs] *)
Definition environment (kwargs : gmap string KwVal) : M World loc :=
  let* env := GovukFrontendEnvironment kwargs in
  modify env (with_filters (update
    [ ("localtime", VCallable fn_localtime) ])) ;;
  let* env_name := os_environ_get "ENV" "dev" in
  modify env (with_globals (update
    [ ("break_words", VCallable fn_break_words);
      ("query_transform", VCallable fn_query_transform);
      ("crispy", VCallable fn_render_crispy_form);
      ("env", VStr env_name);
      ("get_messages", VCallable fn_get_messages);
      ("localtime", VCallable fn_localtime);
      ("pluralize", VCallable fn_pluralize);
      ("settings", VSettings);
      ("static", VCallable fn_static);
      ("url", VCallable fn_reverse);
      ("webpack_static", VCallable fn_webpack_static) ])) ;;
  modify env (with_globals
    <["render_bundle" := VPartial fn_render_bundle env]>) ;;
  ret env.

End Upstream.

(** The names an environment exposes as globals and as filters. *)
Definition global_names (w : World) (l : loc) : option (gset string) :=
  e ← envs w !! l; Some (dom (globals e)).

Definition filter_names (w : World) (l : loc) : option (gset string) :=
  e ← envs w !! l; Some (dom (filters e)).

Definition global (w : World) (l : loc) (name : string) : option Value :=
  e ← envs w !! l; globals e !! name.

Definition installed (w : World) (l : loc) : option (list Extension) :=
  e ← envs w !! l; Some (extensions e).

Definition filter (w : World) (l : loc) (name : string) : option Value :=
  e ← envs w !! l; filters e !! name.

(** The extensions of the environment a construction returns. *)
Definition installed_by (construct : M World loc) (w : World)
  : option (list Extension) :=
  match construct w with
  | Some (l, w') => installed w' l
  | None => None
  end.

(** The global names [environment] registers. *)
Definition registered_globals : gset string :=
  list_to_set
    [ "break_words"; "query_transform"; "crispy"; "env"; "get_messages";
      "localtime"; "pluralize"; "settings"; "static"; "url";
      "webpack_static"; "render_bundle" ].

(** Keyword arguments the underlying constructor accepts: what comes
    under ["extensions"] is a list. *)
Definition accepted (kwargs : gmap string KwVal) : bool :=
  match kwargs !! "extensions" with
  | Some (KwOpaque _) => false
  | _ => true
  end.

(** The extensions [GovukFrontendEnvironment] asks for. *)
Definition extensions_of (kwargs : gmap string KwVal) : list Extension :=
  match kwargs !! "extensions" with
  | Some (KwExtensions l) => l
  | _ => [GovukFrontendExtension]
  end.

(** The globals Jinja gives every environment, for examples. *)
Definition jinja_globals : gmap string Value :=
  list_to_map
    [ ("range", VBuiltin "range"); ("dict", VBuiltin "dict");
      ("lipsum", VBuiltin "lipsum"); ("cycler", VBuiltin "cycler");
      ("joiner", VBuiltin "joiner"); ("namespace", VBuiltin "namespace") ].

(** A process that has built no environment yet. *)
Definition fresh_world (environ : gmap string string) : World :=
  {| os_environ := environ; envs := [] |}.

End Env.

(** * Properties *)

(** ** Facts about text *)

Module TextFacts.
Import Text.

Lemma append_assoc (a b c : string) : (a ++ b) ++ c = a ++ b ++ c.
Proof. induction a as [|x a IH]; simpl; [reflexivity | now rewrite IH]. Qed.

Lemma startswith_iff (p s : string) :
  startswith p s = true <-> exists t, s = p ++ t.
Proof.
  revert s; induction p as [|a p IH]; intros s; simpl.
  - split; [intros _; now exists s | reflexivity].
  - destruct s as [|b s].
    + split; [discriminate | intros [t Ht]; discriminate].
    + rewrite andb_true_iff, Ascii.eqb_eq, IH. split.
      * intros [-> [t ->]]. now exists t.
      * intros [t Ht]. injection Ht as -> ->. split; [reflexivity | now exists t].
Qed.

Lemma startswith_append (p t : string) : startswith p (p ++ t) = true.
Proof. apply startswith_iff. now exists t. Qed.

(** [contains] is the substring relation. *)
Lemma contains_iff (w s : string) :
  contains w s = true <-> exists a b, s = a ++ w ++ b.
Proof.
  induction s as [|c s IH].
  - simpl. rewrite orb_false_r, startswith_iff. split.
    + intros [t Ht]. now exists "", t.
    + intros [[|x a] [b Hb]]; [now exists b | discriminate].
  - cbn [contains]. rewrite orb_true_iff, startswith_iff, IH. split.
    + intros [[t Ht] | [a [b Hab]]].
      * now exists "", t.
      * exists (String c a), b. simpl. now rewrite Hab.
    + intros [[|x a] [b Hb]].
      * left. now exists b.
      * right. simpl in Hb. injection Hb as -> ->. now exists a, b.
Qed.

Lemma contains_intro (a w b : string) : contains w (a ++ w ++ b) = true.
Proof. apply contains_iff. now exists a, b. Qed.

(** Where an occurrence of [String c w] sits in [u ++ v] when [c] does
    not occur in [u]: entirely in [v]. *)
Lemma occurrence_after (c : ascii) (u : string) :
  mem c u = false ->
  forall a w b v, a ++ String c w ++ b = u ++ v ->
  exists a', a = u ++ a' /\ a' ++ String c w ++ b = v.
Proof.
  induction u as [|x u IH]; intros Hu a w b v E.
  - now exists a.
  - simpl in Hu. apply orb_false_iff in Hu as [Hx Hu].
    destruct a as [|y a]; simpl in E.
    + injection E as -> _. now rewrite Ascii.eqb_refl in Hx.
    + injection E as -> E.
      destruct (IH Hu _ _ _ _ E) as [a' [-> Ha']].
      now exists a'.
Qed.

End TextFacts.

(** ** Facts about scanning substitution *)

Module ReFacts.
Import Text Re TextFacts.

Lemma match_here_split (p : pattern) : forall s g rest,
  match_here p s = Some (g, rest) ->
  s = g ++ rest /\ String.length g = List.length p.
Proof.
  induction p as [|pc p IH]; intros s g rest H; simpl in H.
  - injection H as <- <-. now split.
  - destruct s as [|c s]; [discriminate|].
    destruct (pchar_matches pc c); [|discriminate].
    destruct (match_here p s) as [[g' rest']|] eqn:E; [|discriminate].
    injection H as <- <-. destruct (IH _ _ _ E) as [-> Hl].
    simpl. now rewrite Hl.
Qed.

Lemma match_here_app (p q : pattern) : forall s g rest t rest',
  match_here p s = Some (g, rest) ->
  match_here q rest = Some (t, rest') ->
  match_here (p ++ q)%list s = Some (g ++ t, rest').
Proof.
  induction p as [|pc p IH]; intros s g rest t rest' Hp Hq; simpl in *.
  - injection Hp as <- <-. exact Hq.
  - destruct s as [|c s]; [discriminate|].
    destruct (pchar_matches pc c); [|discriminate].
    destruct (match_here p s) as [[g' r']|] eqn:E; [|discriminate].
    injection Hp as <- <-. now rewrite (IH _ _ _ _ _ E Hq).
Qed.

Lemma match_alt_sound (alts : list pattern) (k : pattern) : forall s g t,
  match_alt alts k s = Some (g, t) ->
  exists a rest, In a alts /\
    match_here (a ++ k)%list s = Some (g ++ t, rest) /\
    String.length g = List.length a /\ String.length t = List.length k.
Proof.
  induction alts as [|a alts IH]; intros s g t H; simpl in H; [discriminate|].
  assert (Hnext : match_alt alts k s = Some (g, t) ->
    exists a0 rest, In a0 (a :: alts) /\
      match_here (a0 ++ k)%list s = Some (g ++ t, rest) /\
      String.length g = List.length a0 /\ String.length t = List.length k).
  { intros H'. destruct (IH _ _ _ H') as (a0 & rest & Hin & Hm).
    exists a0, rest. split; [now right | exact Hm]. }
  destruct (match_here a s) as [[g' rest]|] eqn:Ea; [|auto].
  destruct (match_here k rest) as [[t' rest']|] eqn:Ek; [|auto].
  injection H as <- <-. exists a, rest'. split; [now left|].
  split; [exact (match_here_app _ _ _ _ _ _ _ Ea Ek)|].
  split; [apply (match_here_split _ _ _ _ Ea) | apply (match_here_split _ _ _ _ Ek)].
Qed.

Lemma fits_cons (pc : pchar) (p : pattern) (c : ascii) (s : string) :
  fits (pc :: p) (String c s) = pchar_matches pc c && fits p s.
Proof.
  unfold fits; simpl. destruct (pchar_matches pc c); [|reflexivity].
  now destruct (match_here p s) as [[? ?]|].
Qed.

Lemma fits_compat (p : pattern) : forall w b,
  fits p (w ++ b) = true -> compat p w = true.
Proof.
  induction p as [|pc p IH]; intros w b H; [reflexivity|].
  destruct w as [|c w]; [reflexivity|].
  simpl in H. rewrite fits_cons in H. apply andb_true_iff in H as [Hc Hp].
  simpl. rewrite Hc. exact (IH _ _ Hp).
Qed.

Lemma fits_skip (p : pattern) : forall a rest,
  fits p (a ++ rest) = true ->
  fits (skipn (String.length a) p) rest = true.
Proof.
  induction p as [|pc p IH]; intros a rest H.
  - destruct a as [|c a]; simpl in *.
    + exact H.
    + reflexivity.
  - destruct a as [|c a]; [exact H|].
    simpl in H. rewrite fits_cons in H. apply andb_true_iff in H as [_ Hp].
    simpl. exact (IH _ _ Hp).
Qed.

Lemma scan_match (m : matcher) (c : ascii) (s r : string) (k : nat) :
  m (String c s) = Some (r, S k) ->
  scan m 0 (String c s) = r ++ scan m k s.
Proof. intros H. cbn [scan]. now rewrite H. Qed.

Lemma scan_skip (m : matcher) (a : string) : forall s,
  scan m (String.length a) (a ++ s) = scan m 0 s.
Proof. induction a as [|c a IH]; intros s; [reflexivity | exact (IH s)]. Qed.

Section Scan.

Variable pats : list pattern.
Variable m : matcher.
Hypothesis m_bounded : bounded_by pats m.

(** A match the scan takes before an occurrence of [w] ends before it. *)
Lemma match_ends_before (w : string) (Hleft : clear_left pats w = true) :
  forall a b r n, a <> "" -> m (a ++ w ++ b) = Some (r, n) ->
  n <= String.length a.
Proof.
  intros a b r n Ha Hm.
  destruct (m_bounded _ _ _ Hm) as (p & Hin & -> & Hfit).
  destruct (le_lt_dec (List.length p) (String.length a)) as [|Hlt]; [assumption|].
  exfalso.
  assert (Hk : In (String.length a) (seq 1 (List.length p - 1))).
  { apply in_seq. destruct a; [congruence | simpl in *; lia]. }
  unfold clear_left in Hleft. rewrite forallb_forall in Hleft.
  specialize (Hleft p Hin). rewrite forallb_forall in Hleft.
  specialize (Hleft _ Hk). apply negb_true_iff in Hleft.
  apply fits_skip in Hfit. apply fits_compat in Hfit. congruence.
Qed.

(** The scan arrives at an occurrence it cannot reach into with nothing
    left to skip. *)
Lemma scan_reaches (w : string) (Hleft : clear_left pats w = true) :
  forall a b skip, skip <= String.length a ->
  exists o, scan m skip (a ++ w ++ b) = o ++ scan m 0 (w ++ b).
Proof.
  induction a as [|c a IH]; intros b skip Hskip.
  - simpl in Hskip. assert (skip = 0) as -> by lia. now exists "".
  - cbn [String.append scan]. destruct skip as [|k].
    + destruct (m (String c (a ++ w ++ b))) as [[r [|k]]|] eqn:Hm.
      * destruct (IH b 0) as [o Ho]; [lia|].
        exists (r ++ String c o). rewrite Ho.
        now rewrite append_assoc.
      * assert (Hn : S k <= String.length (String c a)).
        { apply (match_ends_before w Hleft (String c a) b r); [discriminate|].
          exact Hm. }
        destruct (IH b k) as [o Ho]; [simpl in Hn; lia|].
        exists (r ++ o). rewrite Ho. now rewrite append_assoc.
      * destruct (IH b 0) as [o Ho]; [lia|].
        exists (String c o). now rewrite Ho.
    + destruct (IH b k) as [o Ho]; [simpl in Hskip; lia|].
      exists o. exact Ho.
Qed.

(** The scan copies an occurrence no match can start in. *)
Lemma scan_passes (w : string) (Hin : clear_inside pats w = true) :
  forall b, scan m 0 (w ++ b) = w ++ scan m 0 b.
Proof.
  induction w as [|c w IH]; intros b; [reflexivity|].
  cbn [clear_inside] in Hin. apply andb_true_iff in Hin as [Hhere Hin].
  cbn [String.append scan].
  destruct (m (String c (w ++ b))) as [[r n]|] eqn:Hm.
  - exfalso. destruct (m_bounded _ _ _ Hm) as (p & Hp & _ & Hfit).
    rewrite forallb_forall in Hhere. specialize (Hhere p Hp).
    apply negb_true_iff in Hhere.
    apply (fits_compat p (String c w) b) in Hfit. congruence.
  - now rewrite (IH Hin).
Qed.

(** A substring no match can touch survives the substitution. *)
Lemma sub_preserves (w : string) :
  clear_left pats w = true -> clear_inside pats w = true ->
  forall s, contains w s = true -> contains w (sub m s) = true.
Proof.
  intros Hl Hi s Hs. apply contains_iff in Hs as (a & b & ->).
  destruct (scan_reaches w Hl a b 0) as [o Ho]; [lia|].
  unfold sub. rewrite Ho, (scan_passes w Hi).
  apply contains_intro.
Qed.

(** An occurrence the scan reaches and rewrites shows in the output. *)
Lemma sub_rewrites (w w' : string) :
  clear_left pats w = true ->
  (forall b, scan m 0 (w ++ b) = w' ++ scan m 0 b) ->
  forall s, contains w s = true -> contains w' (sub m s) = true.
Proof.
  intros Hl Hw s Hs. apply contains_iff in Hs as (a & b & ->).
  destruct (scan_reaches w Hl a b 0) as [o Ho]; [lia|].
  unfold sub. rewrite Ho, Hw. apply contains_intro.
Qed.

End Scan.

End ReFacts.

(** ** The preprocessor *)

Module PreprocessorFacts.
Import Text Re TextFacts ReFacts Preprocessor.

Lemma iterated_fix_bounded : bounded_by iterated_pats iterated_fix.
Proof.
  intros s r n H. unfold iterated_fix in H.
  destruct (match_here _ s) as [[g1 rest]|] eqn:E1; [|discriminate].
  destruct (match_alt _ _ rest) as [[g2 t]|] eqn:E2; [|discriminate].
  injection H as <- <-.
  apply match_alt_sound in E2 as (a & rest' & Ha & Hm & Hg2 & Ht).
  apply in_map_iff in Ha as (x & <- & Hx).
  exists (compile "for attribute, value in " ++ compile x)%list.
  split; [apply in_map_iff; now exists x|].
  rewrite List.app_nil_r in Hm.
  pose proof (match_here_app _ _ _ _ _ _ _ E1 Hm) as Hfit.
  split.
  - rewrite List.length_app, <- Hg2.
    now rewrite (proj2 (match_here_split _ _ _ _ E1)).
  - unfold fits. now rewrite Hfit.
Qed.

Lemma nested_fix_bounded : bounded_by nested_pats nested_fix.
Proof.
  intros s r n H. unfold nested_fix in H.
  destruct (match_alt _ _ s) as [[g1 t]|] eqn:E; [|discriminate].
  injection H as <- <-.
  apply match_alt_sound in E as (a & rest & Ha & Hm & Hg & Ht).
  apply in_map_iff in Ha as (x & <- & Hx).
  exists (compile x ++ literal ".")%list.
  split; [apply in_map_iff; now exists x|].
  split.
  - now rewrite List.length_app, Hg, Ht.
  - unfold fits. now rewrite Hm.
Qed.

Lemma startswith_fits (old : string) : forall s,
  startswith old s = true -> fits (literal old) s = true.
Proof.
  induction old as [|c old IH]; intros s H; [reflexivity|].
  destruct s as [|d s]; [discriminate|].
  simpl in H. apply andb_true_iff in H as [Hc Hs].
  cbn [literal]. rewrite fits_cons. cbn [pchar_matches].
  now rewrite Hc, (IH _ Hs).
Qed.

Lemma length_literal (t : string) :
  List.length (literal t) = String.length t.
Proof. induction t as [|c t IH]; simpl; [reflexivity | now rewrite IH]. Qed.

Lemma literally_bounded (old new : string) :
  bounded_by [literal old] (literally old new).
Proof.
  intros s r n H. unfold literally in H.
  destruct (startswith old s) eqn:E; [|discriminate].
  injection H as <- <-. exists (literal old).
  split; [now left|]. split; [now rewrite length_literal|].
  now apply startswith_fits.
Qed.

Lemma contains_cons (w : string) (c : ascii) (s : string) :
  contains w s = true -> contains w (String c s) = true.
Proof. intros H. cbn [contains]. rewrite H. apply orb_true_r. Qed.

(** [str.replace] puts [new] wherever [old] occurs. *)
Lemma replace_introduces (old new : string) : old <> "" ->
  forall s, contains old s = true -> contains new (replace old new s) = true.
Proof.
  intros Hold s Hs. apply contains_iff in Hs as (a & b & ->).
  unfold replace, sub. induction a as [|c a IH].
  - destruct old as [|o old']; [congruence|].
    cbn [String.append scan]. unfold literally at 1.
    change (String o (old' ++ b)) with (String o old' ++ b).
    rewrite startswith_append. cbn [String.length].
    apply (contains_intro "" new).
  - cbn [String.append scan].
    destruct (literally old new (String c (a ++ old ++ b))) as [[r n]|] eqn:E.
    + unfold literally in E.
      destruct (startswith old _); [|discriminate]. injection E as <- <-.
      destruct (String.length old);
        apply (contains_intro "" new).
    + now apply contains_cons.
Qed.

Section ReplaceRemoves.

Variables (o0 n0 : ascii) (old' new' : string).
Local Abbreviation old := (String o0 old').
Local Abbreviation new := (String n0 new').
Hypothesis new_head_fresh : mem n0 old = false.
Hypothesis old_head_fresh : mem o0 new = false.

(** A text free of the first character of [new] that starts the output
    was copied from the input. *)
Lemma prefix_copied : forall u t, mem n0 u = false ->
  startswith u (scan (literally old new) 0 t) = true -> startswith u t = true.
Proof.
  induction u as [|c u IH]; intros t Hu H; [reflexivity|].
  simpl in Hu. apply orb_false_iff in Hu as [Hc Hu].
  destruct t as [|d t]; [discriminate|].
  cbn [scan] in H. unfold literally at 1 in H.
  destruct (startswith old (String d t)).
  - cbn [String.length] in H. simpl in H.
    apply andb_true_iff in H as [H _]. rewrite Ascii.eqb_sym in H. congruence.
  - simpl in H. apply andb_true_iff in H as [H1 H2].
    simpl. rewrite H1. exact (IH _ Hu H2).
Qed.

Lemma scan_has_no_old : forall s skip a b,
  scan (literally old new) skip s <> a ++ old ++ b.
Proof.
  induction s as [|c s IH]; intros skip a b E.
  - destruct a; discriminate.
  - cbn [scan] in E. destruct skip as [|k]; [|exact (IH _ _ _ E)].
    unfold literally at 1 in E.
    destruct (startswith old (String c s)) eqn:Hs.
    + cbn [String.length] in E. symmetry in E.
      apply (occurrence_after o0 new old_head_fresh) in E as (a' & _ & E).
      exact (IH _ _ _ (eq_sym E)).
    + destruct a as [|x a]; simpl in E.
      * injection E as -> E.
        assert (Hp : startswith old' s = true).
        { apply (prefix_copied old' s).
          - simpl in new_head_fresh. now apply orb_false_iff in new_head_fresh.
          - rewrite E. apply startswith_append. }
        simpl in Hs. rewrite Ascii.eqb_refl, Hp in Hs. discriminate.
      * injection E as _ E. exact (IH _ _ _ E).
Qed.

Lemma replace_removes (s : string) : contains old (replace old new s) = false.
Proof.
  destruct (contains old (replace old new s)) eqn:E; [|reflexivity].
  apply contains_iff in E as (a & b & E).
  now apply scan_has_no_old in E.
Qed.

End ReplaceRemoves.

End PreprocessorFacts.

Module PreprocessorSpec.
Import Text Re TextFacts ReFacts Preprocessor PreprocessorFacts.

Lemma nested_fix_guards_legend (b : string) :
  scan nested_fix 0 ("params.legend.text" ++ b) =
  "(params.legend|default({})).text" ++ scan nested_fix 0 b.
Proof.
  change ("params.legend.text" ++ b)
    with (String "p" ("arams.legend." ++ "text" ++ b)).
  rewrite (scan_match nested_fix _ _ "(params.legend|default({}))." 13)
    by (vm_compute; reflexivity).
  change 13 with (String.length "arams.legend.").
  rewrite (scan_skip nested_fix "arams.legend." ("text" ++ b)).
  rewrite (scan_passes nested_pats nested_fix nested_fix_bounded "text")
    by (vm_compute; reflexivity).
  reflexivity.
Qed.

Lemma iterated_fix_guards_attributes (b : string) :
  scan iterated_fix 0 ("for attribute, value in item.attributes" ++ b) =
  "for attribute, value in (item.attributes|default({}))"
  ++ scan iterated_fix 0 b.
Proof.
  change ("for attribute, value in item.attributes" ++ b)
    with (String "f" ("or attribute, value in item.attributes" ++ b)).
  rewrite (scan_match iterated_fix _ _
             "for attribute, value in (item.attributes|default({}))" 38)
    by (vm_compute; reflexivity).
  exact (f_equal _ (scan_skip iterated_fix
                      "or attribute, value in item.attributes" b)).
Qed.

(** C2 (as the code has it): when the filename is absent, empty or does
    not end in [.njk], the preprocessor returns the source text itself,
    unchanged; neither the superclass step nor any of the three
    substitutions is applied. *)
Theorem preprocess_outside_njk
    (super_preprocess : string -> string -> option string -> string)
    (source name : string) (filename : option string) :
  is_njk filename = false ->
  preprocess super_preprocess source name filename = source.
Proof. intros H. unfold preprocess. now rewrite H. Qed.

Lemma preprocess_outside_njk_witness :
  is_njk (Some "base.html") = false /\
  preprocess name_keyed_upstream "{% elseif x %}" "base.html"
    (Some "base.html") = "{% elseif x %}".
Proof.
  split; [reflexivity|].
  apply (preprocess_outside_njk name_keyed_upstream). reflexivity.
Defined.

(** C2, the claim as stated, fails: for a template named [radios.njk]
    that comes without a filename, an upstream step keyed on the name
    translates [elseif], the preprocessor does not call it and returns
    the source as it came. *)
Lemma preprocess_skips_super_outside_njk :
  is_njk None = false /\
  preprocess name_keyed_upstream "{% elseif x %}" "radios.njk" None
  <> name_keyed_upstream "{% elseif x %}" "radios.njk" None.
Proof. split; [reflexivity|]. vm_compute. discriminate. Qed.

(** C3: for a [.njk] file whose text after the superclass step contains
    [+ (params.maxlength or params.maxwords) +], the output contains
    [~ (params.maxlength or params.maxwords) ~] and no occurrence of the
    original text. *)
Theorem concat_fix_applied
    (super_preprocess : string -> string -> option string -> string)
    (source name : string) (filename : option string) :
  is_njk filename = true ->
  contains "+ (params.maxlength or params.maxwords) +"
    (super_preprocess source name filename) = true ->
  contains "~ (params.maxlength or params.maxwords) ~"
    (preprocess super_preprocess source name filename) = true /\
  contains "+ (params.maxlength or params.maxwords) +"
    (preprocess super_preprocess source name filename) = false.
Proof.
  intros Hnjk Hsrc. unfold preprocess. rewrite Hnjk. unfold njk_fixes.
  split.
  - apply (replace_introduces concat_old concat_new); [discriminate|].
    apply (sub_preserves nested_pats nested_fix nested_fix_bounded);
      [vm_compute; reflexivity | vm_compute; reflexivity |].
    apply (sub_preserves iterated_pats iterated_fix iterated_fix_bounded);
      [vm_compute; reflexivity | vm_compute; reflexivity |].
    exact Hsrc.
  - apply (replace_removes "+" "~"); reflexivity.
Qed.

Lemma concat_fix_applied_witness :
  is_njk (Some "character-count/template.njk") = true /\
  contains "+ (params.maxlength or params.maxwords) +"
    (passthrough "{{ 'Up to ' + (params.maxlength or params.maxwords) + '.' }}"
       "template.njk" (Some "character-count/template.njk")) = true /\
  contains "~ (params.maxlength or params.maxwords) ~"
    (preprocess passthrough
       "{{ 'Up to ' + (params.maxlength or params.maxwords) + '.' }}"
       "template.njk" (Some "character-count/template.njk")) = true /\
  contains "+ (params.maxlength or params.maxwords) +"
    (preprocess passthrough
       "{{ 'Up to ' + (params.maxlength or params.maxwords) + '.' }}"
       "template.njk" (Some "character-count/template.njk")) = false.
Proof.
  split; [reflexivity|]. split; [reflexivity|].
  apply (concat_fix_applied passthrough); reflexivity.
Defined.

(** C4: for a [.njk] file whose text after the superclass step contains
    [params.legend.text], the output contains
    [(params.legend|default({})).text]. *)
Theorem legend_text_guarded
    (super_preprocess : string -> string -> option string -> string)
    (source name : string) (filename : option string) :
  is_njk filename = true ->
  contains "params.legend.text"
    (super_preprocess source name filename) = true ->
  contains "(params.legend|default({})).text"
    (preprocess super_preprocess source name filename) = true.
Proof.
  intros Hnjk Hsrc. unfold preprocess. rewrite Hnjk. unfold njk_fixes.
  apply (sub_preserves concat_pats (literally concat_old concat_new)
           (literally_bounded _ _));
    [vm_compute; reflexivity | vm_compute; reflexivity |].
  apply (sub_rewrites nested_pats nested_fix nested_fix_bounded
           "params.legend.text");
    [vm_compute; reflexivity | exact nested_fix_guards_legend |].
  apply (sub_preserves iterated_pats iterated_fix iterated_fix_bounded);
    [vm_compute; reflexivity | vm_compute; reflexivity |].
  exact Hsrc.
Qed.

Lemma legend_text_guarded_witness :
  is_njk (Some "fieldset/template.njk") = true /\
  contains "params.legend.text"
    (passthrough "{% if params.legend.text %}<legend>{% endif %}"
       "template.njk" (Some "fieldset/template.njk")) = true /\
  contains "(params.legend|default({})).text"
    (preprocess passthrough "{% if params.legend.text %}<legend>{% endif %}"
       "template.njk" (Some "fieldset/template.njk")) = true.
Proof.
  split; [reflexivity|]. split; [reflexivity|].
  apply (legend_text_guarded passthrough); reflexivity.
Defined.

(** C5: for a [.njk] file whose text after the superclass step contains
    [for attribute, value in item.attributes], the output contains
    [for attribute, value in (item.attributes|default({}))]. *)
Theorem item_attributes_guarded
    (super_preprocess : string -> string -> option string -> string)
    (source name : string) (filename : option string) :
  is_njk filename = true ->
  contains "for attribute, value in item.attributes"
    (super_preprocess source name filename) = true ->
  contains "for attribute, value in (item.attributes|default({}))"
    (preprocess super_preprocess source name filename) = true.
Proof.
  intros Hnjk Hsrc. unfold preprocess. rewrite Hnjk. unfold njk_fixes.
  apply (sub_preserves concat_pats (literally concat_old concat_new)
           (literally_bounded _ _));
    [vm_compute; reflexivity | vm_compute; reflexivity |].
  apply (sub_preserves nested_pats nested_fix nested_fix_bounded);
    [vm_compute; reflexivity | vm_compute; reflexivity |].
  apply (sub_rewrites iterated_pats iterated_fix iterated_fix_bounded
           "for attribute, value in item.attributes");
    [vm_compute; reflexivity | exact iterated_fix_guards_attributes |].
  exact Hsrc.
Qed.

Lemma item_attributes_guarded_witness :
  is_njk (Some "radios/template.njk") = true /\
  contains "for attribute, value in item.attributes"
    (passthrough "{% for attribute, value in item.attributes %}x{% endfor %}"
       "template.njk" (Some "radios/template.njk")) = true /\
  contains "for attribute, value in (item.attributes|default({}))"
    (preprocess passthrough
       "{% for attribute, value in item.attributes %}x{% endfor %}"
       "template.njk" (Some "radios/template.njk")) = true.
Proof.
  split; [reflexivity|]. split; [reflexivity|].
  apply (item_attributes_guarded passthrough); reflexivity.
Defined.

(** C10: the text [item-hint.text] contains none of the names of
    [nested_attrs], yet processed as a [.njk] file it comes out as
    [(item-hint|default({})).text]: the dot of [item.hint] compiles to
    the wildcard, which matches the hyphen. *)
Theorem unescaped_dot_matches_hyphen :
  forallb (fun a => negb (contains a "item-hint.text")) nested_attrs = true /\
  In Dot (compile "item.hint") /\
  sub nested_fix "item-hint.text" = "(item-hint|default({})).text" /\
  preprocess passthrough "item-hint.text" "checkboxes/template.njk"
    (Some "checkboxes/template.njk") = "(item-hint|default({})).text".
Proof.
  split; [reflexivity|]. split; [|split; reflexivity].
  simpl. tauto.
Qed.

End PreprocessorSpec.

(** ** [break_words] *)

Module HelpersSpec.
Import Text Re TextFacts ReFacts Helpers.

Local Abbreviation other := (fun c => negb (word_char c)).

Lemma span_all (f : ascii -> bool) (s : string) : all_chars f (span f s) = true.
Proof.
  induction s as [|c s IH]; simpl; [reflexivity|].
  destruct (f c) eqn:E; simpl; [now rewrite E | reflexivity].
Qed.

(** What follows the longest prefix of [f]-characters does not start
    with one. *)
Lemma span_split (f : ascii -> bool) (s : string) :
  exists rest, s = span f s ++ rest /\
    String.length rest <= String.length s /\
    (rest = "" \/ exists d t, rest = String d t /\ f d = false).
Proof.
  induction s as [|c s (rest & Hs & Hlen & Hrest)].
  - exists "". simpl. auto.
  - simpl. destruct (f c) eqn:E.
    + exists rest. simpl. rewrite <- Hs. repeat split; [lia | exact Hrest].
    + exists (String c s). simpl. repeat split; [lia|].
      right. now exists c, s.
Qed.

Lemma runs_head (d : ascii) (t : string) :
  exists r tl, runs (String d t) = (word_char d, r) :: tl.
Proof.
  simpl. destruct (runs t) as [|[k r] tl]; [now eexists _, _|].
  destruct (Bool.eqb (word_char d) k) eqn:E; [|now eexists _, _].
  apply Bool.eqb_prop in E. rewrite E. now eexists _, _.
Qed.

(** A run of other characters in front of a text that does not go on
    with one is the first run of the whole. *)
Lemma runs_other_run (rest : string) :
  (rest = "" \/ exists d t, rest = String d t /\ other d = false) ->
  forall r, r <> "" -> all_chars other r = true ->
  runs (r ++ rest) = (false, r) :: runs rest.
Proof.
  intros Hrest. induction r as [|c r IH]; intros Hne Hall; [congruence|].
  simpl in Hall. apply andb_true_iff in Hall as [Hc Hall].
  apply negb_true_iff in Hc.
  destruct r as [|c' r'].
  - cbn [String.append runs]. rewrite Hc.
    destruct Hrest as [-> | (d & t & -> & Hd)]; [reflexivity|].
    destruct (runs_head d t) as (x & tl & ->).
    apply negb_false_iff in Hd. now rewrite Hd.
  - assert (IH' := IH ltac:(discriminate) Hall).
    change (String c (String c' r') ++ rest)
      with (String c (String c' r' ++ rest)).
    cbn [runs]. cbn [runs] in IH'. rewrite IH'. now rewrite Hc.
Qed.

Lemma marked_word_cons (c : ascii) (s : string) :
  word_char c = true -> marked_runs (String c s) = String c (marked_runs s).
Proof.
  intros Hc. unfold marked_runs. cbn [runs]. rewrite Hc.
  destruct (runs s) as [|[[|] r] tl]; reflexivity.
Qed.

Lemma scan_other_run (c : ascii) (s rest : string) :
  word_char c = false -> s = span other s ++ rest ->
  scan non_word_run 0 (String c s) =
  zwsp ++ String c (span other s) ++ zwsp ++ scan non_word_run 0 rest.
Proof.
  intros Hc Hs.
  rewrite (scan_match non_word_run c s
             (zwsp ++ String c (span other s) ++ zwsp)
             (String.length (span other s))).
  - remember (span other s) as r eqn:Hr. rewrite Hs, scan_skip.
    now rewrite !append_assoc.
  - unfold non_word_run. cbn [span]. now rewrite Hc.
Qed.

(** The code and the description agree. *)
Lemma sub_marks_runs : forall n word, String.length word <= n ->
  sub non_word_run word = marked_runs word.
Proof.
  induction n as [|n IH]; intros [|c s] Hlen; try reflexivity.
  - simpl in Hlen. lia.
  - simpl in Hlen. destruct (word_char c) eqn:Hc.
    + rewrite marked_word_cons by exact Hc.
      unfold sub. cbn [scan]. unfold non_word_run at 1. cbn [span].
      rewrite Hc. cbn [negb]. f_equal. apply IH. lia.
    + destruct (span_split other s) as (rest & Hs & Hrl & Hrest).
      unfold sub. rewrite (scan_other_run c s rest Hc Hs).
      unfold marked_runs. remember (span other s) as r eqn:Hr. rewrite Hs.
      change (String c (r ++ rest)) with (String c r ++ rest).
      rewrite (runs_other_run rest Hrest (String c r)); [|discriminate|].
      * cbn [map mark_run flatten]. rewrite !append_assoc.
        do 3 f_equal. apply IH. lia.
      * cbn [all_chars]. rewrite Hc, Hr. apply span_all.
Qed.

Lemma runs_flatten (word : string) : flatten (map snd (runs word)) = word.
Proof.
  induction word as [|c s IH]; [reflexivity|].
  cbn [runs]. destruct (runs s) as [|[k r] tl].
  - simpl in *. now rewrite <- IH.
  - destruct (Bool.eqb (word_char c) k); simpl in *; now rewrite <- IH.
Qed.

Lemma runs_are_runs (word : string) : forallb is_run (runs word) = true.
Proof.
  induction word as [|c s IH]; [reflexivity|].
  cbn [runs]. destruct (runs s) as [|[k r] tl].
  - simpl. now rewrite Bool.eqb_reflx.
  - cbn [forallb] in IH. apply andb_true_iff in IH as [Hr Htl].
    destruct (Bool.eqb (word_char c) k) eqn:E.
    + cbn [forallb]. rewrite Htl, andb_true_r.
      unfold is_run in *. apply andb_true_iff in Hr as [_ Hr].
      cbn [all_chars]. now rewrite E, Hr.
    + cbn [forallb]. rewrite Hr, Htl. unfold is_run.
      simpl. now rewrite Bool.eqb_reflx.
Qed.

Lemma runs_alternate (word : string) : alternating (runs word) = true.
Proof.
  induction word as [|c s IH]; [reflexivity|].
  cbn [runs]. destruct (runs s) as [|[k r] tl]; [reflexivity|].
  destruct (Bool.eqb (word_char c) k) eqn:E.
  - destruct tl as [|[k2 r2] tl]; [reflexivity | exact IH].
  - cbn [alternating]. cbn [alternating] in IH. now rewrite E, IH.
Qed.

(** For a word that is a plain [str], [break_words] returns, marked as
    safe markup, the word with [&#8203;] put immediately before and
    after every maximal run of non-word characters: the word is the
    concatenation of its runs, each a non-empty text of characters of
    one class, neighbours of different classes, and the result is the
    concatenation of the runs with each run of non-word characters
    between two markers.  In particular [break_words("hello/goodbye")]
    is the markup [hello&#8203;/&#8203;goodbye]. *)
Theorem break_words_marks_runs (word : string) :
  break_words (Plain word) = MkMarkup (flatten (map mark_run (runs word))) /\
  flatten (map snd (runs word)) = word /\
  forallb is_run (runs word) = true /\
  alternating (runs word) = true /\
  mark_run (false, "/") = "&#8203;/&#8203;" /\
  break_words (Plain "hello/goodbye")
  = MkMarkup "hello&#8203;/&#8203;goodbye".
Proof.
  split; [|split; [|split; [|split; [|split]]]].
  - unfold break_words. f_equal.
    exact (sub_marks_runs (String.length word) word (le_n _)).
  - apply runs_flatten.
  - apply runs_are_runs.
  - apply runs_alternate.
  - reflexivity.
  - reflexivity.
Qed.

(** C6: the code misses the claim for a word that is a [Markup]: the
    markers go in through the word's own [join] and come out escaped,
    so that [break_words(Markup("a/b"))] is the markup
    [a&amp;#8203;/&amp;#8203;b], in which the marker [&#8203;] does not
    occur, where the plain string [a/b] gives [a&#8203;/&#8203;b]. *)
Theorem break_words_markup_argument :
  break_words (Safe (MkMarkup "a/b")) = MkMarkup "a&amp;#8203;/&amp;#8203;b" /\
  contains "&#8203;" (markup_text (break_words (Safe (MkMarkup "a/b"))))
  = false /\
  break_words (Plain "a/b") = MkMarkup "a&#8203;/&#8203;b".
Proof. repeat split; vm_compute; reflexivity. Qed.

End HelpersSpec.

(** ** Heaps *)

Module HeapFacts.

Lemma lookup_last {A} (l : list A) (x : A) :
  (l ++ [x])%list !! length l = Some x.
Proof. now apply list_lookup_middle. Qed.

Lemma insert_last {A} (l : list A) (x y : A) :
  <[length l := y]> (l ++ [x])%list = (l ++ [y])%list.
Proof.
  rewrite insert_app_r_alt by reflexivity. now rewrite Nat.sub_diag.
Qed.

Lemma lookup_before_last {A} (l : list A) (x y : A) :
  ((l ++ [x]) ++ [y])%list !! length l = Some x.
Proof.
  rewrite lookup_app_l; [apply lookup_last|].
  rewrite length_app. simpl. lia.
Qed.

End HeapFacts.

(** ** Query strings *)

Module QueryCodec.
Import Text Query.

Lemma count_append (c : ascii) (a b : string) :
  count c (a ++ b) = count c a + count c b.
Proof.
  induction a as [|x a IH]; [reflexivity|].
  cbn [String.append count]. rewrite IH. lia.
Qed.

(** Neither separator survives the quoting of a key or a value. *)
Lemma quote_plus_no_separator (s : string) :
  count "&" (quote_plus s) = 0 /\ count "=" (quote_plus s) = 0.
Proof.
  induction s as [|x s [IHa IHe]]; [now split|].
  cbn [quote_plus]. rewrite !count_append, IHa, IHe.
  destruct x as [[] [] [] [] [] [] [] []]; split; reflexivity.
Qed.

Lemma count_pair (k v : string) :
  count "&" (quote_plus k ++ "=" ++ quote_plus v) = 0 /\
  count "=" (quote_plus k ++ "=" ++ quote_plus v) = 1.
Proof.
  rewrite !count_append.
  destruct (quote_plus_no_separator k) as [-> ->].
  destruct (quote_plus_no_separator v) as [-> ->].
  now split.
Qed.

Lemma unquote_quote_char (c : ascii) (rest : string) :
  unquote_plus
    ((if always_safe c then String c EmptyString
      else if Ascii.eqb c " " then "+"
      else percent c) ++ rest)
  = String c (unquote_plus rest).
Proof. destruct c as [[] [] [] [] [] [] [] []]; reflexivity. Qed.

(** Unquoting undoes quoting. *)
Lemma unquote_quote (s : string) : unquote_plus (quote_plus s) = s.
Proof.
  induction s as [|c s IH]; [reflexivity|].
  cbn [quote_plus]. now rewrite unquote_quote_char, IH.
Qed.

Lemma split_on_free (sep : ascii) (a : string) :
  count sep a = 0 -> split_on sep a = [a].
Proof.
  induction a as [|c a IH]; intros H; [reflexivity|].
  cbn [count split_on] in *. rewrite (Ascii.eqb_sym c sep).
  destruct (Ascii.eqb sep c); [discriminate|].
  now rewrite (IH H).
Qed.

Lemma split_on_first (sep : ascii) (a b : string) :
  count sep a = 0 ->
  split_on sep (a ++ String sep b) = a :: split_on sep b.
Proof.
  induction a as [|c a IH]; intros H.
  - cbn [String.append split_on]. now rewrite Ascii.eqb_refl.
  - cbn [count String.append split_on] in *. rewrite (Ascii.eqb_sym c sep).
    destruct (Ascii.eqb sep c); [discriminate|].
    now rewrite (IH H).
Qed.

Lemma partition_at_first (sep : ascii) (a b : string) :
  count sep a = 0 ->
  partition_at sep (a ++ String sep b) = (a, Some b).
Proof.
  induction a as [|c a IH]; intros H.
  - cbn [String.append partition_at]. now rewrite Ascii.eqb_refl.
  - cbn [count String.append partition_at] in *.
    rewrite (Ascii.eqb_sym c sep).
    destruct (Ascii.eqb sep c); [discriminate|].
    now rewrite (IH H).
Qed.

(** A quoted pair reads back as the pair. *)
Lemma parse_pair_quoted (k v : string) :
  parse_pair (quote_plus k ++ "=" ++ quote_plus v) = [(k, v)].
Proof.
  unfold parse_pair.
  change (quote_plus k ++ "=" ++ quote_plus v)
    with (quote_plus k ++ String "=" (quote_plus v)).
  rewrite (partition_at_first "=" (quote_plus k) (quote_plus v))
    by apply quote_plus_no_separator.
  rewrite !unquote_quote.
  destruct (quote_plus k); reflexivity.
Qed.

Lemma parse_join (pieces : list string) :
  (forall p, In p pieces -> count "&" p = 0) ->
  parse_qsl (join "&" pieces) = flat_map parse_pair pieces.
Proof.
  unfold parse_qsl. induction pieces as [|p pieces IH]; intros H.
  - reflexivity.
  - destruct pieces as [|p' pieces].
    + cbn [join]. now rewrite split_on_free by (apply H; now left).
    + change (join "&" (p :: p' :: pieces))
        with (p ++ String "&" (join "&" (p' :: pieces))).
      rewrite split_on_first by (apply H; now left).
      cbn [flat_map]. f_equal. apply IH. intros x Hx. apply H. now right.
Qed.

(** The encoding of a mapping reads back as its keys and values. *)
Lemma parse_urlencode (q : QueryDict) : parse_qsl (urlencode q) = items q.
Proof.
  unfold urlencode. rewrite parse_join.
  - unfold items. induction q as [|[k vs] q IH]; [reflexivity|].
    cbn [flat_map fst snd]. rewrite flat_map_app, IH. f_equal.
    induction vs as [|v vs IHvs]; [reflexivity|].
    cbn [map flat_map]. now rewrite parse_pair_quoted, IHvs.
  - intros p Hp. apply in_flat_map in Hp as ([k vs] & _ & Hp).
    apply in_map_iff in Hp as (v & <- & _). apply count_pair.
Qed.








End QueryCodec.

(** ** [query_transform] *)

Module QuerySpec.
Import Text Heap Query HeapFacts QueryCodec.





(** The loop works on the copy, the last object of the heap, only. *)
Lemma loop_on_copy (h : heap) (kwargs : list (string * string)) :
  forall q,
  for_each kwargs (fun '(key, value) => store_item (length h) key value)
    (h ++ [q])%list
  = Some (tt, (h ++ [assign_all q kwargs])%list).
Proof.
  induction kwargs as [|[k v] kwargs IH]; intros q; [reflexivity|].
  cbn [for_each]. cbv beta iota delta [bind store_item deref].
  rewrite lookup_last, insert_last.
  exact (IH (setitem q k v)).
Qed.

Lemma query_transform_runs (h : heap) (request : HttpRequest) (q : QueryDict)
    (kwargs : list (string * string)) :
  h !! GET request = Some q ->
  query_transform request kwargs h
  = Some (urlencode (assign_all q kwargs),
          (h ++ [assign_all q kwargs])%list).
Proof.
  intros Hq. unfold query_transform, copy. unfold bind at 1 2, deref at 1.
  rewrite Hq. unfold bind at 1. rewrite loop_on_copy.
  unfold bind, deref. now rewrite lookup_last.
Qed.



End QuerySpec.

(** ** The environment *)

Module EnvSpec.
Import Heap Env HeapFacts.

Lemma GovukFrontendEnvironment_runs (df dg : gmap string Value)
    (kwargs : gmap string KwVal) (w : World) :
  accepted kwargs = true ->
  GovukFrontendEnvironment df dg kwargs w
  = alloc {| extensions := extensions_of kwargs; filters := df;
             globals := dg |} w.
Proof.
  unfold accepted, GovukFrontendEnvironment, Environment_init, setdefault,
    extensions_of.
  destruct (kwargs !! "extensions") as [[l|r]|] eqn:E; intros Hacc.
  - now rewrite E.
  - discriminate.
  - now rewrite lookup_insert_eq.
Qed.

Lemma modify_last (f : Environment -> Environment) (environ : gmap string string)
    (es : list Environment) (e : Environment) :
  modify (length es) f {| os_environ := environ; envs := (es ++ [e])%list |}
  = Some (tt, {| os_environ := environ; envs := (es ++ [f e])%list |}).
Proof.
  unfold modify. cbn [envs os_environ]. now rewrite lookup_last, insert_last.
Qed.

(** What [environment] leaves behind: one more object, after the ones
    there were. *)
Lemma environment_runs (df dg : gmap string Value)
    (kwargs : gmap string KwVal) (w : World) :
  accepted kwargs = true ->
  exists e : Environment,
    environment df dg kwargs w
    = Some (length (envs w),
            {| os_environ := os_environ w; envs := (envs w ++ [e])%list |}) /\
    extensions e = extensions_of kwargs /\
    dom (globals e) = dom dg ∪ registered_globals /\
    dom (filters e) = dom df ∪ {["localtime"]} /\
    globals e !! "env"
    = Some (VStr (default "dev" (os_environ w !! "ENV"))) /\
    globals e !! "localtime" = Some (VCallable fn_localtime) /\
    filters e !! "localtime" = Some (VCallable fn_localtime) /\
    globals e !! "render_bundle"
    = Some (VPartial fn_render_bundle (length (envs w))).
Proof.
  intros Hacc. unfold environment.
  unfold bind at 1. rewrite (GovukFrontendEnvironment_runs _ _ _ _ Hacc).
  unfold alloc at 1. unfold bind at 1. rewrite modify_last.
  unfold bind at 1, os_environ_get at 1. cbn [os_environ].
  unfold bind at 1. rewrite modify_last.
  unfold bind at 1. rewrite modify_last.
  unfold ret. eexists. split; [reflexivity|].
  cbn [extensions globals filters with_globals with_filters update foldl
       fst snd].
  split; [reflexivity|].
  split.
  { rewrite !dom_insert_L. unfold registered_globals. cbn [list_to_set].
    apply set_eq. intros x.
    rewrite !elem_of_union, !elem_of_singleton, elem_of_empty. tauto. }
  split.
  { rewrite !dom_insert_L. apply set_eq. intros x.
    rewrite !elem_of_union. tauto. }
  split; [unfold default; now simplify_map_eq|].
  repeat split; now simplify_map_eq.
Qed.

(** C1 (as the code has it): the environment gets the extensions listed
    under [extensions] when the caller gives that key, and the
    preprocessor extension alone when the caller does not; nothing is
    added to a caller's list.  A value under [extensions] that is not a
    list makes the construction fail. *)
Theorem extensions_default_or_given (df dg : gmap string Value)
    (kwargs : gmap string KwVal) (w : World) :
  installed_by (GovukFrontendEnvironment df dg kwargs) w
  = match kwargs !! "extensions" with
    | None => Some [GovukFrontendExtension]
    | Some (KwExtensions given) => Some given
    | Some (KwOpaque _) => None
    end /\
  installed_by (environment df dg kwargs) w
  = installed_by (GovukFrontendEnvironment df dg kwargs) w.
Proof.
  destruct (accepted kwargs) eqn:Hacc.
  - destruct (environment_runs df dg kwargs w Hacc) as (e & Hrun & Hext & _).
    unfold installed_by. rewrite Hrun.
    rewrite (GovukFrontendEnvironment_runs _ _ _ _ Hacc).
    unfold alloc, installed. cbn [envs]. rewrite !lookup_last.
    cbn. rewrite Hext. unfold extensions_of, accepted in *.
    destruct (kwargs !! "extensions") as [[l|r]|]; try discriminate;
      now split.
  - unfold accepted in Hacc.
    unfold installed_by, environment, bind, GovukFrontendEnvironment,
      Environment_init, setdefault.
    destruct (kwargs !! "extensions") as [[l|r]|] eqn:E; try discriminate.
    now rewrite E.
Qed.

(** C1, the claim as stated, fails: a caller who passes its own
    [extensions] list gets that list, without the preprocessor
    extension. *)
Lemma caller_extensions_exclude_preprocessor :
  installed_by
    (environment ∅ jinja_globals
       {[ "extensions" := KwExtensions [OtherExtension "jinja2.ext.i18n"] ]})
    (fresh_world ∅)
  = Some [OtherExtension "jinja2.ext.i18n"] /\
  ~ In GovukFrontendExtension [OtherExtension "jinja2.ext.i18n"].
Proof.
  split.
  - vm_compute. reflexivity.
  - simpl. intuition discriminate.
Qed.

(** C9 (as the code has it): the environment [environment] returns
    exposes each of the twelve names as a global, next to the globals
    the underlying constructor provides: its global names are those and
    the twelve, and [localtime] is a filter as well as a global. *)
Theorem environment_exposes (df dg : gmap string Value)
    (kwargs : gmap string KwVal) (w : World) :
  accepted kwargs = true ->
  exists (l : loc) (w' : World),
    environment df dg kwargs w = Some (l, w') /\
    global_names w' l
    = Some (dom dg ∪ list_to_set
              [ "break_words"; "query_transform"; "crispy"; "env";
                "get_messages"; "localtime"; "pluralize"; "settings";
                "static"; "url"; "webpack_static"; "render_bundle" ]) /\
    filter_names w' l = Some (dom df ∪ {["localtime"]}) /\
    global w' l "localtime" = Some (VCallable fn_localtime) /\
    filter w' l "localtime" = Some (VCallable fn_localtime).
Proof.
  intros Hacc.
  destruct (environment_runs df dg kwargs w Hacc)
    as (e & Hrun & _ & Hg & Hf & _ & Hlg & Hlf & _).
  eexists _, _. split; [exact Hrun|].
  unfold global_names, filter_names, global, filter. cbn [envs].
  rewrite !lookup_last. cbn. rewrite Hg, Hf, Hlg, Hlf. now repeat split.
Qed.

Lemma environment_exposes_witness :
  accepted {[ "autoescape" := KwOpaque "True" ]} = true /\
  exists (l : loc) (w' : World),
    environment ∅ jinja_globals {[ "autoescape" := KwOpaque "True" ]}
      (fresh_world ∅) = Some (l, w') /\
    global_names w' l
    = Some (dom jinja_globals ∪ list_to_set
              [ "break_words"; "query_transform"; "crispy"; "env";
                "get_messages"; "localtime"; "pluralize"; "settings";
                "static"; "url"; "webpack_static"; "render_bundle" ]) /\
    filter_names w' l = Some (dom (∅ : gmap string Value) ∪ {["localtime"]}) /\
    global w' l "localtime" = Some (VCallable fn_localtime) /\
    filter w' l "localtime" = Some (VCallable fn_localtime).
Proof.
  split; [reflexivity|].
  apply (environment_exposes ∅ jinja_globals). reflexivity.
Defined.

(** C9, the claim as stated, fails: on top of Jinja's own globals the
    environment also exposes [range], which is not one of the twelve
    names. *)
Lemma underlying_globals_stay_exposed :
  exists w' : World,
    environment ∅ jinja_globals ∅ (fresh_world ∅) = Some (0, w') /\
    global w' 0 "range" = Some (VBuiltin "range") /\
    global_names w' 0 <> Some registered_globals.
Proof.
  eexists. split; [vm_compute; reflexivity|].
  split; [vm_compute; reflexivity|].
  intros H. apply (bool_decide_pack _) in H. vm_compute in H. exact H.
Qed.

(** C8: two calls in sequence with the same keyword arguments, the
    process changing [os.environ] in between, give two environments with
    the same global names; the [env] global of each is the value of
    [ENV] when it was built, [dev] when [ENV] was not set; the second
    construction leaves the first environment's [env] as it was. *)
Theorem two_constructions (df dg : gmap string Value)
    (kwargs : gmap string KwVal) (w0 : World)
    (environ' : gmap string string) :
  accepted kwargs = true ->
  exists (l1 l2 : loc) (w1 w2 : World),
    environment df dg kwargs w0 = Some (l1, w1) /\
    environment df dg kwargs {| os_environ := environ'; envs := envs w1 |}
    = Some (l2, w2) /\
    l1 <> l2 /\
    is_Some (global_names w2 l1) /\
    global_names w2 l1 = global_names w2 l2 /\
    global w1 l1 "env" = Some (VStr (default "dev" (os_environ w0 !! "ENV"))) /\
    global w2 l1 "env" = global w1 l1 "env" /\
    global w2 l2 "env" = Some (VStr (default "dev" (environ' !! "ENV"))).
Proof.
  intros Hacc.
  destruct (environment_runs df dg kwargs w0 Hacc)
    as (e1 & Hrun1 & _ & Hg1 & _ & Henv1 & _).
  destruct (environment_runs df dg kwargs
              {| os_environ := environ';
                 envs := (envs w0 ++ [e1])%list |} Hacc)
    as (e2 & Hrun2 & _ & Hg2 & _ & Henv2 & _).
  cbn [envs os_environ] in Hrun2, Henv2.
  eexists _, _, _, _. split; [exact Hrun1|]. cbn [envs].
  split; [exact Hrun2|].
  split; [rewrite length_app; simpl; lia|].
  unfold global_names, global. cbn [envs].
  rewrite lookup_before_last, !lookup_last. cbn.
  rewrite Hg1, Hg2, Henv1, Henv2. now repeat split.
Qed.

Lemma two_constructions_witness :
  accepted {[ "autoescape" := KwOpaque "True" ]} = true /\
  exists (l1 l2 : loc) (w1 w2 : World),
    environment ∅ jinja_globals {[ "autoescape" := KwOpaque "True" ]}
      (fresh_world {[ "ENV" := "staging" ]}) = Some (l1, w1) /\
    environment ∅ jinja_globals {[ "autoescape" := KwOpaque "True" ]}
      {| os_environ := {[ "ENV" := "production" ]}; envs := envs w1 |}
    = Some (l2, w2) /\
    l1 <> l2 /\
    is_Some (global_names w2 l1) /\
    global_names w2 l1 = global_names w2 l2 /\
    global w1 l1 "env"
    = Some (VStr (default "dev"
                    (os_environ (fresh_world {[ "ENV" := "staging" ]})
                       !! "ENV"))) /\
    global w2 l1 "env" = global w1 l1 "env" /\
    global w2 l2 "env"
    = Some (VStr (default "dev"
                    (({[ "ENV" := "production" ]} : gmap string string)
                       !! "ENV"))).
Proof.
  split; [reflexivity|].
  apply (two_constructions ∅ jinja_globals). reflexivity.
Defined.

End EnvSpec.

(** * Further properties *)

(** ** Substitution: when the text changes *)

Module ReMore.
Import Text Re TextFacts ReFacts.

(** Where the matcher matches nowhere the text is copied. *)
Lemma sub_quiet (m : matcher) : forall s, fires m s = false -> sub m s = s.
Proof.
  unfold sub. induction s as [|c s IH]; intros H; [reflexivity|].
  cbn [fires] in H. cbn [scan].
  destruct (m (String c s)); [discriminate|].
  now rewrite (IH H).
Qed.

Section Growth.

Variable m : matcher.
Variable extra : nat.

(** Every match consumes at least one character, lies within the text,
    and is replaced by a text [extra] characters longer. *)
Hypothesis m_grows : forall s r n, m s = Some (r, n) ->
  1 <= n /\ n <= String.length s /\ String.length r = n + extra.

Lemma length_append (a b : string) :
  String.length (a ++ b) = String.length a + String.length b.
Proof. induction a as [|x a IH]; simpl; [reflexivity | now rewrite IH]. Qed.

Lemma scan_length_ge : forall s skip, skip <= String.length s ->
  String.length s <= String.length (scan m skip s) + skip.
Proof.
  induction s as [|c s IH]; intros skip Hskip; simpl in *; [lia|].
  destruct skip as [|k].
  - destruct (m (String c s)) as [[r [|n]]|] eqn:Hm.
    + apply m_grows in Hm. lia.
    + destruct (m_grows _ _ _ Hm) as (_ & Hn & Hr). simpl in Hn.
      specialize (IH n ltac:(lia)). rewrite length_append. lia.
    + specialize (IH 0 ltac:(lia)). simpl. lia.
  - specialize (IH k ltac:(lia)). lia.
Qed.

Lemma sub_length_ge (s : string) :
  String.length s <= String.length (sub m s).
Proof.
  pose proof (scan_length_ge s 0 ltac:(lia)). unfold sub. lia.
Qed.

(** A match somewhere makes the result longer when replacements are. *)
Lemma sub_length_gt : 1 <= extra -> forall s, fires m s = true ->
  String.length s < String.length (sub m s).
Proof.
  intros Hextra. unfold sub.
  induction s as [|c s IH]; intros H; cbn [fires] in H.
  - destruct (m "") as [[r n]|] eqn:Hm; [|discriminate].
    apply m_grows in Hm. simpl in Hm. lia.
  - cbn [scan]. destruct (m (String c s)) as [[r [|n]]|] eqn:Hm.
    + apply m_grows in Hm. lia.
    + destruct (m_grows _ _ _ Hm) as (_ & Hn & Hr). simpl in Hn.
      pose proof (scan_length_ge s n ltac:(lia)).
      rewrite length_append. simpl. lia.
    + specialize (IH H). simpl. lia.
Qed.

End Growth.

Section GrowthAtLeast.

Variable m : matcher.
Variable extra : nat.

(** As before, with replacements at least [extra] characters longer. *)
Hypothesis m_grows : forall s r n, m s = Some (r, n) ->
  1 <= n /\ n <= String.length s /\ n + extra <= String.length r.

Lemma scan_length_least : forall s skip, skip <= String.length s ->
  String.length s <= String.length (scan m skip s) + skip.
Proof.
  induction s as [|c s IH]; intros skip Hskip; simpl in *; [lia|].
  destruct skip as [|k].
  - destruct (m (String c s)) as [[r [|n]]|] eqn:Hm.
    + apply m_grows in Hm. lia.
    + destruct (m_grows _ _ _ Hm) as (_ & Hn & Hr). simpl in Hn.
      specialize (IH n ltac:(lia)). rewrite length_append. lia.
    + specialize (IH 0 ltac:(lia)). simpl. lia.
  - specialize (IH k ltac:(lia)). lia.
Qed.

Lemma sub_length_more : 1 <= extra -> forall s, fires m s = true ->
  String.length s < String.length (sub m s).
Proof.
  intros Hextra. unfold sub.
  induction s as [|c s IH]; intros H; cbn [fires] in H.
  - destruct (m "") as [[r n]|] eqn:Hm; [|discriminate].
    apply m_grows in Hm. simpl in Hm. lia.
  - cbn [scan]. destruct (m (String c s)) as [[r [|n]]|] eqn:Hm.
    + apply m_grows in Hm. lia.
    + destruct (m_grows _ _ _ Hm) as (_ & Hn & Hr). simpl in Hn.
      pose proof (scan_length_least s n ltac:(lia)).
      rewrite length_append. simpl. lia.
    + specialize (IH H). simpl. lia.
Qed.

End GrowthAtLeast.

(** Substitution distributes over a cut that no match crosses: the
    matcher sees at every place before the cut what it would see
    without the text after it. *)
Lemma scan_append (m : matcher) (b : string)
    (m_within : forall s r n, m s = Some (r, n) ->
                1 <= n /\ n <= String.length s) :
  forall a skip, skip <= String.length a ->
  (forall a1 a2, a = a1 ++ a2 -> a2 <> "" -> m (a2 ++ b) = m a2) ->
  scan m skip (a ++ b) = scan m skip a ++ scan m 0 b.
Proof.
  induction a as [|c a IH]; intros skip Hskip Hcut.
  - simpl in Hskip. assert (skip = 0) as -> by lia. reflexivity.
  - assert (Hcut' : forall a1 a2, a = a1 ++ a2 -> a2 <> "" ->
                    m (a2 ++ b) = m a2).
    { intros a1 a2 -> Hne. now apply (Hcut (String c a1) a2). }
    cbn [String.append scan]. destruct skip as [|k].
    + change (String c (a ++ b)) with (String c a ++ b).
      rewrite (Hcut "" (String c a) eq_refl ltac:(discriminate)).
      destruct (m (String c a)) as [[r [|n]]|] eqn:Hm.
      * apply m_within in Hm. lia.
      * destruct (m_within _ _ _ Hm) as [_ Hn]. simpl in Hn.
        rewrite (IH n ltac:(lia) Hcut'). now rewrite append_assoc.
      * now rewrite (IH 0 ltac:(lia) Hcut').
    + simpl in Hskip. exact (IH k ltac:(lia) Hcut').
Qed.

End ReMore.

(** ** The preprocessor, further *)

Module PreprocessorMore.
Import Text Re TextFacts ReFacts ReMore Preprocessor PreprocessorFacts.

Lemma scan_match_whole (m : matcher) (w r b : string) :
  w <> "" -> m (w ++ b) = Some (r, String.length w) ->
  scan m 0 (w ++ b) = r ++ scan m 0 b.
Proof.
  destruct w as [|c w]; [congruence|]. intros _ Hm.
  cbn [String.append] in *. cbn [String.length] in Hm.
  rewrite (scan_match m c (w ++ b) r (String.length w) Hm).
  now rewrite scan_skip.
Qed.

Ltac nested_match c H :=
  unfold nested_fix; cbn [nested_attrs map compile literal respell];
  cbn -[newline]; rewrite ?H; reflexivity.

Lemma nested_fix_respelled (c : ascii) (b name : string) :
  Ascii.eqb c newline = false -> In name nested_attrs ->
  nested_fix ((respell c name ++ ".") ++ b)
  = Some (guarded (respell c name) ++ ".",
          String.length (respell c name ++ ".")).
Proof.
  intros H Hin. unfold nested_attrs in Hin. cbn [In] in Hin.
  repeat (destruct Hin as [<- | Hin]; [nested_match c H|]).
  destruct Hin.
Qed.

(** The dot of a name in [nested_attrs] stands for any character but the
    newline: for every listed name spelled with such a character [c] in
    place of its dot and followed by a dot, at the start of a text, the
    attribute rule wraps the spelling as it stands and goes on after it. *)
Theorem nested_fix_wildcard (c : ascii) (b name : string) :
  Ascii.eqb c newline = false -> In name nested_attrs ->
  sub nested_fix (respell c name ++ "." ++ b)
  = guarded (respell c name) ++ "." ++ sub nested_fix b.
Proof.
  intros H Hin. unfold sub. rewrite <- !append_assoc.
  apply scan_match_whole.
  - destruct name; [|discriminate].
    unfold nested_attrs in Hin. cbn in Hin. intuition discriminate.
  - now apply nested_fix_respelled.
Qed.

Lemma nested_fix_wildcard_witness :
  Ascii.eqb "/" newline = false /\ In "params.formGroup" nested_attrs /\
  sub nested_fix (respell "/" "params.formGroup" ++ "." ++ "classes")
  = guarded (respell "/" "params.formGroup") ++ "."
    ++ sub nested_fix "classes".
Proof.
  split; [reflexivity|]. split; [cbn; tauto|].
  apply nested_fix_wildcard; [reflexivity | cbn; tauto].
Defined.

(** The newline is the one character the dot does not stand for: a
    listed name broken by a newline is copied. *)
Theorem nested_fix_not_across_lines (b name : string) :
  In name nested_attrs ->
  sub nested_fix (respell newline name ++ "." ++ b)
  = respell newline name ++ "." ++ sub nested_fix b.
Proof.
  intros Hin. unfold sub. rewrite <- !append_assoc.
  apply (scan_passes nested_pats nested_fix nested_fix_bounded).
  unfold nested_attrs in Hin. cbn [In] in Hin.
  repeat (destruct Hin as [<- | Hin]; [vm_compute; reflexivity|]).
  destruct Hin.
Qed.

Lemma nested_fix_not_across_lines_witness :
  In "item.label" nested_attrs /\
  sub nested_fix (respell newline "item.label" ++ "." ++ "text")
  = respell newline "item.label" ++ "." ++ sub nested_fix "text".
Proof.
  split; [cbn; tauto|].
  apply nested_fix_not_across_lines. cbn; tauto.
Defined.

Lemma iterated_fix_grows (s r : string) (n : nat) :
  iterated_fix s = Some (r, n) ->
  1 <= n /\ n <= String.length s /\ String.length r = n + 14.
Proof.
  unfold iterated_fix. intros H.
  destruct (match_here _ s) as [[g1 rest]|] eqn:E1; [|discriminate].
  destruct (match_alt _ _ rest) as [[g2 t]|] eqn:E2; [|discriminate].
  injection H as <- <-.
  apply match_here_split in E1 as [-> Hg1].
  apply match_alt_sound in E2 as (a & rest' & _ & Hm & _ & _).
  apply match_here_split in Hm as [-> _].
  change (List.length (compile "for attribute, value in ")) with 24 in Hg1.
  rewrite !length_append. cbn [String.length]. rewrite ?length_append.
  cbn [String.length]. lia.
Qed.

Lemma nested_fix_grows (s r : string) (n : nat) :
  nested_fix s = Some (r, n) ->
  1 <= n /\ n <= String.length s /\ String.length r = n + 14.
Proof.
  unfold nested_fix. intros H.
  destruct (match_alt _ _ s) as [[g1 t]|] eqn:E; [|discriminate].
  injection H as <- <-.
  apply match_alt_sound in E as (a & rest & _ & Hm & _ & Ht).
  apply match_here_split in Hm as [-> _].
  change (List.length (literal ".")) with 1 in Ht.
  rewrite !length_append. cbn [String.length]. rewrite !length_append.
  cbn [String.length]. lia.
Qed.

Lemma startswith_length (p : string) : forall s,
  startswith p s = true -> String.length p <= String.length s.
Proof.
  induction p as [|a p IH]; intros [|b s] H; simpl in *; try lia;
    try discriminate.
  apply andb_true_iff in H as [_ H]. apply IH in H. lia.
Qed.

Lemma concat_fix_grows (s r : string) (n : nat) :
  literally concat_old concat_new s = Some (r, n) ->
  1 <= n /\ n <= String.length s /\ String.length r = n + 0.
Proof.
  unfold literally. intros H.
  destruct (startswith concat_old s) eqn:E; [|discriminate].
  injection H as <- <-. apply startswith_length in E.
  change (String.length concat_old) with 41 in *.
  change (String.length concat_new) with 41. lia.
Qed.

Lemma fires_literally (old new : string) : forall s,
  fires (literally old new) s = contains old s.
Proof.
  induction s as [|c s IH]; cbn [fires contains]; unfold literally at 1.
  - now destruct (startswith old "").
  - destruct (startswith old (String c s)); [reflexivity | exact IH].
Qed.

(** On a [.njk] file the preprocessor returns what the superclass step
    gave exactly when none of the three patterns matches anywhere in
    that text; a single match anywhere changes the result. *)
Theorem preprocess_changes_iff
    (super_preprocess : string -> string -> option string -> string)
    (source name : string) (filename : option string) :
  is_njk filename = true ->
  (preprocess super_preprocess source name filename
   = super_preprocess source name filename
   <->
   fires iterated_fix (super_preprocess source name filename) = false /\
   fires nested_fix (super_preprocess source name filename) = false /\
   contains "+ (params.maxlength or params.maxwords) +"
     (super_preprocess source name filename) = false).
Proof.
  intros Hnjk. unfold preprocess. rewrite Hnjk.
  generalize (super_preprocess source name filename) as t. intros t.
  unfold njk_fixes, replace. split.
  - intros Heq.
    pose proof (sub_length_ge iterated_fix 14 iterated_fix_grows t) as L1.
    pose proof (sub_length_ge nested_fix 14 nested_fix_grows
                  (sub iterated_fix t)) as L2.
    pose proof (sub_length_ge (literally concat_old concat_new) 0
                  concat_fix_grows (sub nested_fix (sub iterated_fix t)))
      as L3.
    rewrite Heq in L3.
    destruct (fires iterated_fix t) eqn:F1.
    { pose proof (sub_length_gt iterated_fix 14 iterated_fix_grows
                    ltac:(lia) t F1). lia. }
    rewrite (sub_quiet iterated_fix t F1) in *.
    destruct (fires nested_fix t) eqn:F2.
    { pose proof (sub_length_gt nested_fix 14 nested_fix_grows
                    ltac:(lia) t F2). lia. }
    rewrite (sub_quiet nested_fix t F2) in *.
    repeat split.
    rewrite <- Heq at 1.
    apply (replace_removes "+" "~"); reflexivity.
  - intros (F1 & F2 & F3).
    rewrite (sub_quiet iterated_fix t F1), (sub_quiet nested_fix t F2).
    apply sub_quiet. now rewrite fires_literally.
Qed.

Lemma preprocess_changes_iff_witness :
  is_njk (Some "button/template.njk") = true /\
  preprocess passthrough "<button>{{ params.text }}</button>"
    "template.njk" (Some "button/template.njk")
  = passthrough "<button>{{ params.text }}</button>"
      "template.njk" (Some "button/template.njk").
Proof.
  split; [reflexivity|].
  apply (preprocess_changes_iff passthrough); [reflexivity|].
  repeat split; reflexivity.
Defined.

Lemma endswith_iff (s p : string) :
  endswith s p = true <-> exists a, s = a ++ p.
Proof.
  induction s as [|c s IH]; cbn [endswith].
  - destruct (String.eqb_spec "" p) as [<- | Hne].
    + split; [now exists "" | reflexivity].
    + split; [discriminate|]. intros [[|x a] Ha]; [|discriminate].
      simpl in Ha. congruence.
  - destruct (String.eqb_spec (String c s) p) as [<- | Hne].
    + split; [now exists "" | reflexivity].
    + rewrite IH. split.
      * intros [a ->]. now exists (String c a).
      * intros [[|x a] Ha]; simpl in Ha; [congruence|].
        injection Ha as _ ->. now exists a.
Qed.

(** The three fixes are applied exactly to the templates that come with
    a filename ending in [.njk] (the bare [.njk] included); a template
    without a filename is never one of them. *)
Theorem is_njk_iff (filename : option string) :
  is_njk filename = true <-> exists stem, filename = Some (stem ++ ".njk").
Proof.
  destruct filename as [f|]; cbn [is_njk].
  - rewrite andb_true_iff, endswith_iff. split.
    + intros [_ [stem ->]]. now exists stem.
    + intros [stem E]. injection E as ->. split; [|now exists stem].
      now destruct stem.
  - split; [discriminate | intros [stem E]; discriminate].
Qed.

(** An expression that carries the guard already is left alone: an
    occurrence of a guarded name of [nested_attrs] followed by a dot
    is still there after the three fixes, not wrapped a second time. *)
Theorem guarded_access_survives (name t : string) :
  In name nested_attrs ->
  contains (guarded name ++ ".") t = true ->
  contains (guarded name ++ ".") (njk_fixes t) = true.
Proof.
  intros Hin Ht. unfold njk_fixes, replace.
  unfold nested_attrs in Hin. cbn [In] in Hin.
  repeat (destruct Hin as [<- | Hin];
    [ apply (sub_preserves concat_pats (literally concat_old concat_new)
               (literally_bounded _ _));
        [vm_compute; reflexivity | vm_compute; reflexivity |];
      apply (sub_preserves nested_pats nested_fix nested_fix_bounded);
        [vm_compute; reflexivity | vm_compute; reflexivity |];
      apply (sub_preserves iterated_pats iterated_fix iterated_fix_bounded);
        [vm_compute; reflexivity | vm_compute; reflexivity |];
      exact Ht |]).
  destruct Hin.
Qed.

Lemma guarded_access_survives_witness :
  In "params.legend" nested_attrs /\
  contains (guarded "params.legend" ++ ".")
    "{{ (params.legend|default({})).text }}" = true /\
  contains (guarded "params.legend" ++ ".")
    (njk_fixes "{{ (params.legend|default({})).text }}") = true.
Proof.
  split; [cbn; tauto|]. split; [reflexivity|].
  apply guarded_access_survives; [cbn; tauto | reflexivity].
Defined.

(** The iteration guard, once written, is left alone as well. *)
Theorem guarded_iteration_survives (t : string) :
  contains "for attribute, value in (item.attributes|default({}))" t = true ->
  contains "for attribute, value in (item.attributes|default({}))"
    (njk_fixes t) = true.
Proof.
  intros Ht. unfold njk_fixes, replace.
  apply (sub_preserves concat_pats (literally concat_old concat_new)
           (literally_bounded _ _));
    [vm_compute; reflexivity | vm_compute; reflexivity |].
  apply (sub_preserves nested_pats nested_fix nested_fix_bounded);
    [vm_compute; reflexivity | vm_compute; reflexivity |].
  apply (sub_preserves iterated_pats iterated_fix iterated_fix_bounded);
    [vm_compute; reflexivity | vm_compute; reflexivity |].
  exact Ht.
Qed.

Lemma guarded_iteration_survives_witness :
  contains "for attribute, value in (item.attributes|default({}))"
    "{% for attribute, value in (item.attributes|default({})) %}" = true /\
  contains "for attribute, value in (item.attributes|default({}))"
    (njk_fixes "{% for attribute, value in (item.attributes|default({})) %}")
  = true.
Proof.
  split; [reflexivity|].
  apply guarded_iteration_survives. reflexivity.
Defined.

Lemma respell_dot (name : string) : respell "." name = name.
Proof.
  induction name as [|x name IH]; cbn [respell]; [reflexivity|].
  rewrite IH. destruct (Ascii.eqb_spec x "."); congruence.
Qed.

Lemma nested_fix_guards (name b : string) :
  In name nested_attrs ->
  scan nested_fix 0 ((name ++ ".") ++ b)
  = (guarded name ++ ".") ++ scan nested_fix 0 b.
Proof.
  intros Hin. apply scan_match_whole.
  - destruct name; discriminate.
  - rewrite <- (respell_dot name). now apply nested_fix_respelled.
Qed.

(** The whole allow-list is served: for every name of [nested_attrs], a
    text in which the name is followed by a dot comes out with the
    guarded name followed by a dot. *)
Theorem every_listed_access_guarded (name t : string) :
  In name nested_attrs ->
  contains (name ++ ".") t = true ->
  contains (guarded name ++ ".") (njk_fixes t) = true.
Proof.
  intros Hin Ht. unfold njk_fixes, replace.
  pose proof (fun b => nested_fix_guards name b Hin) as Hstep.
  unfold nested_attrs in Hin. cbn [In] in Hin.
  repeat (destruct Hin as [<- | Hin];
    [ apply (sub_preserves concat_pats (literally concat_old concat_new)
               (literally_bounded _ _));
        [vm_compute; reflexivity | vm_compute; reflexivity |];
      match type of Hstep with
      | forall b, scan _ _ (?w ++ b) = ?w' ++ _ =>
          apply (sub_rewrites nested_pats nested_fix nested_fix_bounded w w');
            [vm_compute; reflexivity | exact Hstep |]
      end;
      apply (sub_preserves iterated_pats iterated_fix iterated_fix_bounded);
        [vm_compute; reflexivity | vm_compute; reflexivity |];
      exact Ht |]).
  destruct Hin.
Qed.

Lemma every_listed_access_guarded_witness :
  In "item.conditional" nested_attrs /\
  contains ("item.conditional" ++ ".")
    "{% if item.conditional.html %}" = true /\
  contains (guarded "item.conditional" ++ ".")
    (njk_fixes "{% if item.conditional.html %}") = true.
Proof.
  split; [cbn; tauto|]. split; [reflexivity|].
  apply every_listed_access_guarded; [cbn; tauto | reflexivity].
Defined.

(** *** Line by line *)

Lemma match_here_cut (p : pattern) : newline_free p = true ->
  forall a b,
  match_here p (a ++ String newline b)
  = match match_here p a with
    | Some (g, rest) => Some (g, rest ++ String newline b)
    | None => None
    end.
Proof.
  induction p as [|pc p IH]; intros Hfree a b; [reflexivity|].
  cbn [newline_free forallb] in Hfree.
  apply andb_true_iff in Hfree as [Hpc Hfree]. apply negb_true_iff in Hpc.
  destruct a as [|c a]; cbn [String.append match_here].
  - now rewrite Hpc.
  - destruct (pchar_matches pc c); [|reflexivity].
    rewrite (IH Hfree). now destruct (match_here p a) as [[g rest]|].
Qed.

Lemma match_alt_cut (alts : list pattern) (k : pattern) :
  forallb newline_free alts = true -> newline_free k = true ->
  forall a b, match_alt alts k (a ++ String newline b) = match_alt alts k a.
Proof.
  intros Halts Hk a b. induction alts as [|p alts IH]; [reflexivity|].
  cbn [forallb] in Halts. apply andb_true_iff in Halts as [Hp Halts].
  cbn [match_alt]. rewrite (match_here_cut p Hp).
  destruct (match_here p a) as [[g rest]|]; [|exact (IH Halts)].
  rewrite (match_here_cut k Hk).
  destruct (match_here k rest) as [[t rest']|]; [reflexivity|exact (IH Halts)].
Qed.

Lemma patterns_newline_free :
  newline_free (compile "for attribute, value in ") = true /\
  forallb newline_free (map compile iterated_objects) = true /\
  forallb newline_free (map compile nested_attrs) = true /\
  newline_free (literal ".") = true.
Proof. repeat split; vm_compute; reflexivity. Qed.

Lemma iterated_fix_cut (a b : string) :
  iterated_fix (a ++ String newline b) = iterated_fix a.
Proof.
  destruct patterns_newline_free as (Hpre & Hit & _ & _).
  unfold iterated_fix. rewrite (match_here_cut _ Hpre).
  destruct (match_here _ a) as [[g1 rest]|]; [|reflexivity].
  now rewrite (match_alt_cut _ [] Hit eq_refl).
Qed.

Lemma nested_fix_cut (a b : string) :
  nested_fix (a ++ String newline b) = nested_fix a.
Proof.
  destruct patterns_newline_free as (_ & _ & Hne & Hdot).
  unfold nested_fix. now rewrite (match_alt_cut _ _ Hne Hdot).
Qed.

Lemma startswith_cut (old : string) : mem newline old = false ->
  forall a b, startswith old (a ++ String newline b) = startswith old a.
Proof.
  induction old as [|o old IH]; intros Hfree a b; [reflexivity|].
  cbn [mem] in Hfree. apply orb_false_iff in Hfree as [Ho Hfree].
  destruct a as [|c a]; cbn [String.append startswith].
  - rewrite Ascii.eqb_sym in Ho. now rewrite Ho.
  - now rewrite (IH Hfree).
Qed.

Lemma concat_fix_cut (a b : string) :
  literally concat_old concat_new (a ++ String newline b)
  = literally concat_old concat_new a.
Proof.
  unfold literally.
  assert (Hfree : mem newline concat_old = false) by (vm_compute; reflexivity).
  now rewrite (startswith_cut concat_old Hfree).
Qed.

(** A matcher that never looks across a line break works on each line
    by itself. *)
Lemma sub_lines (m : matcher)
    (m_within : forall s r n, m s = Some (r, n) ->
                1 <= n /\ n <= String.length s)
    (m_cut : forall a b, m (a ++ String newline b) = m a) (a b : string) :
  sub m (a ++ String newline b) = sub m a ++ String newline (sub m b).
Proof.
  unfold sub.
  rewrite (scan_append m (String newline b) m_within a 0 ltac:(lia))
    by (intros a1 a2 _ _; apply m_cut).
  f_equal. cbn [scan]. rewrite (m_cut "" b : m (String newline b) = m "").
  destruct (m "") as [[r n]|] eqn:Hm; [|reflexivity].
  apply m_within in Hm. simpl in Hm. lia.
Qed.

(** No rewrite spans a line break: the three fixes applied to a text
    are the three fixes applied to each of its lines. *)
Theorem njk_fixes_line_by_line (a b : string) :
  njk_fixes (a ++ String newline b)
  = njk_fixes a ++ String newline (njk_fixes b).
Proof.
  unfold njk_fixes, replace.
  rewrite (sub_lines iterated_fix
             (fun s r n H => let '(conj H1 (conj H2 _)) :=
                               iterated_fix_grows s r n H in conj H1 H2)
             iterated_fix_cut).
  rewrite (sub_lines nested_fix
             (fun s r n H => let '(conj H1 (conj H2 _)) :=
                               nested_fix_grows s r n H in conj H1 H2)
             nested_fix_cut).
  now rewrite (sub_lines (literally concat_old concat_new)
             (fun s r n H => let '(conj H1 (conj H2 _)) :=
                               concat_fix_grows s r n H in conj H1 H2)
             concat_fix_cut).
Qed.

End PreprocessorMore.

(** ** [break_words], further *)

Module HelpersMore.
Import Text Re TextFacts ReFacts ReMore Helpers HelpersSpec.

Local Abbreviation other := (fun c => negb (word_char c)).

Lemma span_length (f : ascii -> bool) (s : string) :
  String.length (span f s) <= String.length s.
Proof.
  induction s as [|c s IH]; simpl; [lia|].
  destruct (f c); simpl; lia.
Qed.

Lemma non_word_run_grows (s r : string) (n : nat) :
  non_word_run s = Some (r, n) ->
  1 <= n /\ n <= String.length s /\ String.length r = n + 14.
Proof.
  unfold non_word_run. pose proof (span_length other s) as Hlen.
  destruct (span other s) as [|c g] eqn:E; [discriminate|].
  intros H. injection H as <- <-.
  cbn [String.length] in *. rewrite length_append.
  cbn [String.length zwsp]. lia.
Qed.

Lemma fires_non_word_run (word : string) :
  fires non_word_run word = negb (all_chars word_char word).
Proof.
  induction word as [|c s IH]; [reflexivity|].
  cbn [fires all_chars]. unfold non_word_run at 1. cbn [span].
  destruct (word_char c); cbn [negb andb]; [exact IH | reflexivity].
Qed.

Lemma escape_length (s : string) :
  String.length s <= String.length (escape s).
Proof.
  induction s as [|c s IH]; [reflexivity|].
  cbn [escape]. rewrite length_append. unfold escape_char.
  repeat (match goal with |- context [if ?b then _ else _] => destruct b end);
    simpl; lia.
Qed.

Lemma non_word_run_escaped_grows (s r : string) (n : nat) :
  non_word_run_escaped s = Some (r, n) ->
  1 <= n /\ n <= String.length s /\ n + 22 <= String.length r.
Proof.
  unfold non_word_run_escaped. pose proof (span_length other s) as Hlen.
  destruct (span other s) as [|c g] eqn:E; [discriminate|].
  intros H. injection H as <- <-.
  pose proof (escape_length (String c g)) as Hesc.
  cbn [escape] in Hesc. rewrite length_append in Hesc.
  cbn [String.length] in Hesc, Hlen.
  repeat (progress cbn [String.length] || rewrite length_append).
  change (String.length (escape zwsp)) with 11. lia.
Qed.

Lemma fires_non_word_run_escaped (word : string) :
  fires non_word_run_escaped word = negb (all_chars word_char word).
Proof.
  induction word as [|c s IH]; [reflexivity|].
  cbn [fires all_chars]. unfold non_word_run_escaped at 1. cbn [span].
  destruct (word_char c); cbn [negb andb]; [exact IH | reflexivity].
Qed.

(** [break_words] returns a word as it is exactly when the word has
    word characters only (the empty word among them), be the word a
    plain string or a [Markup]. *)
Theorem break_words_unchanged_iff (word : Word) :
  break_words word = MkMarkup (word_text word)
  <-> all_chars word_char (word_text word) = true.
Proof.
  destruct word as [s | [s]]; cbn [break_words word_text]; split.
  - intros H. injection H as H.
    destruct (all_chars word_char s) eqn:E; [reflexivity|].
    pose proof (sub_length_gt non_word_run 14 non_word_run_grows
                  ltac:(lia) s) as Hgt.
    rewrite fires_non_word_run, E, H in Hgt. specialize (Hgt eq_refl). lia.
  - intros H. f_equal. apply sub_quiet.
    now rewrite fires_non_word_run, H.
  - intros H. injection H as H.
    destruct (all_chars word_char s) eqn:E; [reflexivity|].
    pose proof (sub_length_more non_word_run_escaped 22
                  non_word_run_escaped_grows ltac:(lia) s) as Hgt.
    rewrite fires_non_word_run_escaped, E, H in Hgt.
    specialize (Hgt eq_refl). lia.
  - intros H. f_equal. apply sub_quiet.
    now rewrite fires_non_word_run_escaped, H.
Qed.

Lemma span_whole (f : ascii -> bool) (s : string) :
  all_chars f s = true -> span f s = s.
Proof.
  induction s as [|c s IH]; intros H; [reflexivity|].
  cbn [all_chars] in H. apply andb_true_iff in H as [Hc Hs].
  cbn [span]. now rewrite Hc, (IH Hs).
Qed.

Lemma scan_skip_all (m : matcher) (s : string) :
  scan m (String.length s) s = "".
Proof. induction s as [|c s IH]; [reflexivity | exact IH]. Qed.

(** A word without any word character is one run.  A plain string
    comes back between two markers; a [Markup] comes back escaped,
    between two escaped markers. *)
Theorem break_words_single_run (word : string) :
  word <> "" -> all_chars (fun c => negb (word_char c)) word = true ->
  break_words (Plain word) = MkMarkup ("&#8203;" ++ word ++ "&#8203;") /\
  break_words (Safe (MkMarkup word))
  = MkMarkup ("&amp;#8203;" ++ escape word ++ "&amp;#8203;").
Proof.
  intros Hne Hall. unfold break_words, sub.
  destruct word as [|c s]; [congruence|]. split; f_equal.
  - rewrite (scan_match non_word_run c s
               (zwsp ++ String c s ++ zwsp) (String.length s)).
    + rewrite scan_skip_all. unfold zwsp. now rewrite !append_assoc.
    + unfold non_word_run. rewrite (span_whole other _ Hall). reflexivity.
  - rewrite (scan_match non_word_run_escaped c s
               (escape zwsp ++ escape (String c s) ++ escape zwsp)
               (String.length s)).
    + rewrite scan_skip_all. change (escape zwsp) with "&amp;#8203;".
      now rewrite !append_assoc.
    + unfold non_word_run_escaped. rewrite (span_whole other _ Hall).
      reflexivity.
Qed.

Lemma break_words_single_run_witness :
  "://" <> "" /\ all_chars (fun c => negb (word_char c)) "://" = true /\
  break_words (Plain "://") = MkMarkup ("&#8203;" ++ "://" ++ "&#8203;") /\
  break_words (Safe (MkMarkup "://"))
  = MkMarkup ("&amp;#8203;" ++ escape "://" ++ "&amp;#8203;").
Proof.
  split; [discriminate|]. split; [reflexivity|].
  apply break_words_single_run; [discriminate | reflexivity].
Defined.

Lemma last_is_suffix (f : ascii -> bool) (a1 a2 : string) :
  a2 <> "" -> last_is f (a1 ++ a2) = last_is f a2.
Proof.
  intros Hne. induction a1 as [|c a1 IH]; [reflexivity|].
  cbn [String.append last_is]. rewrite IH.
  destruct (a1 ++ a2) eqn:E; [|reflexivity].
  destruct a1; [simpl in E; congruence | discriminate].
Qed.

Lemma span_before_word (a b : string) :
  last_is word_char a = true -> span other (a ++ b) = span other a.
Proof.
  induction a as [|c a IH]; intros H; [discriminate|].
  cbn [String.append span]. destruct (word_char c) eqn:Hc; [reflexivity|].
  cbn [negb]. f_equal. apply IH.
  destruct a as [|c' a]; [cbn in H; congruence | exact H].
Qed.

Lemma span_upto_word (a b : string) :
  first_is word_char b = true -> span other (a ++ b) = span other a.
Proof.
  intros Hb. induction a as [|c a IH].
  - destruct b as [|d b]; [discriminate|]. cbn in *. now rewrite Hb.
  - cbn [String.append span]. now rewrite IH.
Qed.

Lemma span_at_joint (a a1 a2 b : string) :
  last_is word_char a = true \/ first_is word_char b = true ->
  a = a1 ++ a2 -> a2 <> "" -> span other (a2 ++ b) = span other a2.
Proof.
  intros [Ha | Hb] -> Hne.
  - rewrite last_is_suffix in Ha by exact Hne.
    exact (span_before_word a2 b Ha).
  - exact (span_upto_word a2 b Hb).
Qed.

(** [break_words] of two texts put together is the two results put
    together, provided the first text ends or the second begins with a
    word character, so that no run of other characters lies across the
    joint; so it is for plain strings and for [Markup]. *)
Theorem break_words_append (a b : string) :
  last_is word_char a = true \/ first_is word_char b = true ->
  markup_text (break_words (Plain (a ++ b)))
  = markup_text (break_words (Plain a))
    ++ markup_text (break_words (Plain b)) /\
  markup_text (break_words (Safe (MkMarkup (a ++ b))))
  = markup_text (break_words (Safe (MkMarkup a)))
    ++ markup_text (break_words (Safe (MkMarkup b))).
Proof.
  intros Hjoint. unfold break_words, markup_text, sub. split.
  - apply scan_append.
    + intros s r n H. apply non_word_run_grows in H. lia.
    + lia.
    + intros a1 a2 E Hne. unfold non_word_run.
      now rewrite (span_at_joint a a1 a2 b Hjoint E Hne).
  - apply scan_append.
    + intros s r n H. apply non_word_run_escaped_grows in H. lia.
    + lia.
    + intros a1 a2 E Hne. unfold non_word_run_escaped.
      now rewrite (span_at_joint a a1 a2 b Hjoint E Hne).
Qed.

Lemma break_words_append_witness :
  (last_is word_char "tax/vat" = true \/ first_is word_char "/rates" = true) /\
  markup_text (break_words (Plain ("tax/vat" ++ "/rates")))
  = markup_text (break_words (Plain "tax/vat"))
    ++ markup_text (break_words (Plain "/rates")) /\
  markup_text (break_words (Safe (MkMarkup ("tax/vat" ++ "/rates"))))
  = markup_text (break_words (Safe (MkMarkup "tax/vat")))
    ++ markup_text (break_words (Safe (MkMarkup "/rates"))).
Proof.
  split; [left; reflexivity|].
  apply break_words_append. left. reflexivity.
Defined.

End HelpersMore.

(** ** [query_transform], further *)

Module QueryMore.
Import Text Heap Query HeapFacts QueryCodec QuerySpec.

Lemma has_key_cons (k : string) (vs : list string) (q : QueryDict)
    (key : string) :
  has_key ((k, vs) :: q) key = String.eqb key k || has_key q key.
Proof. reflexivity. Qed.

Lemma keys_setitem (q : QueryDict) (key value : string) :
  keys (setitem q key value)
  = if has_key q key then keys q else (keys q ++ [key])%list.
Proof.
  induction q as [|[k vs] q IH]; [reflexivity|].
  cbn [setitem]. rewrite has_key_cons, (String.eqb_sym key k).
  destruct (String.eqb k key) eqn:E; cbn [orb]; [reflexivity|].
  unfold keys in *. cbn [map fst]. rewrite IH.
  now destruct (has_key q key).
Qed.

Lemma has_key_setitem (q : QueryDict) (key value other : string) :
  has_key (setitem q key value) other
  = has_key q other || String.eqb other key.
Proof.
  unfold has_key. rewrite keys_setitem.
  destruct (has_key q key) eqn:E.
  - destruct (String.eqb_spec other key) as [-> | Hne];
      [|now rewrite orb_false_r].
    unfold has_key in E. now rewrite E.
  - rewrite existsb_app. cbn [existsb]. now rewrite orb_false_r.
Qed.

Lemma filter_new_keys (q : QueryDict) (key value : string)
    (ks : list string) :
  ~ In key ks ->
  List.filter (fun k => negb (has_key (setitem q key value) k)) ks
  = List.filter (fun k => negb (has_key q k)) ks.
Proof.
  induction ks as [|k ks IH]; intros Hnot; [reflexivity|].
  cbn [List.filter In] in *. rewrite has_key_setitem.
  destruct (String.eqb_spec k key) as [-> | Hne]; [tauto|].
  rewrite orb_false_r, IH by tauto. reflexivity.
Qed.

Lemma keys_assign_all (kwargs : list (string * string)) :
  List.NoDup (map fst kwargs) -> forall q,
  keys (assign_all q kwargs)
  = (keys q
     ++ List.filter (fun k => negb (has_key q k)) (map fst kwargs))%list.
Proof.
  induction kwargs as [|[k v] kwargs IH]; intros Hnd q.
  - cbn. now rewrite List.app_nil_r.
  - cbn [map fst] in Hnd. apply NoDup_cons_iff in Hnd as [Hk Hnd].
    change (assign_all q ((k, v) :: kwargs))
      with (assign_all (setitem q k v) kwargs).
    rewrite (IH Hnd), (filter_new_keys q k v _ Hk), keys_setitem.
    cbn [map fst List.filter].
    destruct (has_key q k); cbn [negb]; [reflexivity|].
    now rewrite <- List.app_assoc.
Qed.

(** The order of the parameters: the keys of the request's query keep
    their places, and the override keys the query does not have yet
    follow them in the order they were passed. *)
Theorem query_transform_key_order (h : heap) (request : HttpRequest)
    (q : QueryDict) (kwargs : list (string * string)) :
  h !! GET request = Some q ->
  List.NoDup (map fst kwargs) ->
  exists q' : QueryDict,
    query_transform request kwargs h = Some (urlencode q', (h ++ [q'])%list) /\
    keys q'
    = (keys q
       ++ List.filter (fun k => negb (has_key q k)) (map fst kwargs))%list.
Proof.
  intros Hq Hnd. exists (assign_all q kwargs).
  split; [now apply query_transform_runs | now apply keys_assign_all].
Qed.

Lemma query_transform_key_order_witness :
  exists q' : QueryDict,
    query_transform {| GET := 0 |} [("sort", "name"); ("page", "2")]
      [[("q", ["tax"]); ("page", ["1"])]]
    = Some (urlencode q', ([[("q", ["tax"]); ("page", ["1"])]] ++ [q'])%list) /\
    keys q' = ["q"; "page"; "sort"].
Proof.
  destruct (query_transform_key_order
              [[("q", ["tax"]); ("page", ["1"])]] {| GET := 0 |}
              [("q", ["tax"]); ("page", ["1"])]
              [("sort", "name"); ("page", "2")])
    as (q' & Hrun & Hkeys).
  - reflexivity.
  - simpl. repeat constructor; simpl; intuition discriminate.
  - exists q'. split; [exact Hrun | exact Hkeys].
Defined.

Lemma setitem_same (q : QueryDict) (key value : string) :
  getlist q key = [value] -> setitem q key value = q.
Proof.
  induction q as [|[k vs] q IH]; intros H; [discriminate|].
  cbn [getlist setitem] in *.
  destruct (String.eqb k key); [now rewrite H | now rewrite IH].
Qed.

Lemma assign_all_same (kwargs : list (string * string)) (q : QueryDict) :
  (forall key value, In (key, value) kwargs -> getlist q key = [value]) ->
  assign_all q kwargs = q.
Proof.
  induction kwargs as [|[k v] kwargs IH]; intros H; [reflexivity|].
  change (assign_all q ((k, v) :: kwargs))
    with (assign_all (setitem q k v) kwargs).
  rewrite (setitem_same q k v) by (apply H; now left).
  apply IH. intros key value Hin. apply H. now right.
Qed.

(** Overrides that repeat what the mapping has (each key with that one
    value already) change nothing: the call returns what the call
    without overrides returns, the encoding of the request's mapping as
    it stands, which reads back as the mapping's keys and values, and
    the copy is equal to the mapping. *)
Theorem query_transform_same_values (h : heap) (request : HttpRequest)
    (q : QueryDict) (kwargs : list (string * string)) :
  h !! GET request = Some q ->
  (forall key value, In (key, value) kwargs -> getlist q key = [value]) ->
  query_transform request kwargs h = query_transform request [] h /\
  exists result : string,
    query_transform request kwargs h = Some (result, (h ++ [q])%list) /\
    parse_qsl result = items q.
Proof.
  intros Hq Hsame.
  rewrite (query_transform_runs h request q kwargs Hq),
    (query_transform_runs h request q [] Hq),
    (assign_all_same kwargs q Hsame).
  split; [reflexivity|].
  exists (urlencode q). split; [reflexivity | apply parse_urlencode].
Qed.

Lemma query_transform_same_values_witness :
  query_transform {| GET := 0 |} [("page", "1")]
    [[("q", ["tax"; "vat"]); ("page", ["1"])]]
  = query_transform {| GET := 0 |} []
      [[("q", ["tax"; "vat"]); ("page", ["1"])]] /\
  exists result : string,
    query_transform {| GET := 0 |} [("page", "1")]
      [[("q", ["tax"; "vat"]); ("page", ["1"])]]
    = Some (result,
            ([[("q", ["tax"; "vat"]); ("page", ["1"])]]
             ++ [[("q", ["tax"; "vat"]); ("page", ["1"])]])%list) /\
    parse_qsl result = items [("q", ["tax"; "vat"]); ("page", ["1"])].
Proof.
  apply query_transform_same_values; [reflexivity|].
  intros key value [E | []]. injection E as <- <-. reflexivity.
Defined.

Lemma count_join (pieces : list string) :
  (forall p, In p pieces -> count "&" p = 0 /\ count "=" p = 1) ->
  count "&" (join "&" pieces) = length pieces - 1 /\
  count "=" (join "&" pieces) = length pieces.
Proof.
  induction pieces as [|p pieces IH]; intros H; [now split|].
  destruct (H p (or_introl eq_refl)) as [Ha He].
  destruct pieces as [|p' pieces].
  - cbn [join length]. now rewrite Ha, He.
  - destruct (IH (fun x Hx => H x (or_intror Hx))) as [IHa IHe].
    change (join "&" (p :: p' :: pieces))
      with (p ++ "&" ++ join "&" (p' :: pieces)).
    rewrite !count_append, Ha, He, IHa, IHe.
    cbn [length]. change (count "&" "&") with 1.
    change (count "=" "&") with 0. lia.
Qed.

Lemma pairs_of_mapping (q : QueryDict) :
  let pieces :=
    flat_map (fun '(k, vs) =>
                map (fun v => quote_plus k ++ "=" ++ quote_plus v) vs) q in
  length pieces = values_total q /\
  forall p, In p pieces -> count "&" p = 0 /\ count "=" p = 1.
Proof.
  induction q as [|[k vs] q [IHlen IHin]]; cbn zeta in *.
  - split; [reflexivity | intros p []].
  - cbn [flat_map]. split.
    + rewrite List.length_app, List.length_map, IHlen. reflexivity.
    + intros p Hp. apply in_app_or in Hp as [Hp | Hp]; [|now apply IHin].
      apply in_map_iff in Hp as (v & <- & _). apply count_pair.
Qed.

(** The query string has one [=] for each value of the resulting mapping
    and an [&] only between two of them: nothing in a key or a value,
    an override included, can add a parameter. *)
Theorem query_transform_separators (h : heap) (request : HttpRequest)
    (q : QueryDict) (kwargs : list (string * string)) :
  h !! GET request = Some q ->
  exists (result : string) (q' : QueryDict),
    query_transform request kwargs h = Some (result, (h ++ [q'])%list) /\
    count "=" result = values_total q' /\
    count "&" result = values_total q' - 1.
Proof.
  intros Hq. exists (urlencode (assign_all q kwargs)), (assign_all q kwargs).
  split; [now apply query_transform_runs|].
  destruct (pairs_of_mapping (assign_all q kwargs)) as [Hlen Hin].
  destruct (count_join _ Hin) as [Ha He].
  unfold urlencode. rewrite Ha, He, Hlen. now split.
Qed.

Lemma query_transform_separators_witness :
  exists (result : string) (q' : QueryDict),
    query_transform {| GET := 0 |} [("q", "a&admin=1")]
      [[("q", ["tax"]); ("page", ["1"])]]
    = Some (result, ([[("q", ["tax"]); ("page", ["1"])]] ++ [q'])%list) /\
    count "=" result = values_total q' /\
    count "&" result = values_total q' - 1.
Proof.
  apply (query_transform_separators
           [[("q", ["tax"]); ("page", ["1"])]] {| GET := 0 |}
           [("q", ["tax"]); ("page", ["1"])]).
  reflexivity.
Defined.

End QueryMore.

(** ** The environment, further *)

Module EnvMore.
Import Heap Env HeapFacts EnvSpec.

(** The tables of the environment [environment] builds. *)
Lemma environment_tables (df dg : gmap string Value)
    (kwargs : gmap string KwVal) (w : World) :
  accepted kwargs = true ->
  exists e : Environment,
    environment df dg kwargs w
    = Some (length (envs w),
            {| os_environ := os_environ w; envs := (envs w ++ [e])%list |}) /\
    filters e = <["localtime" := VCallable fn_localtime]> df /\
    globals e
    = <["render_bundle" := VPartial fn_render_bundle (length (envs w))]>
        (<["webpack_static" := VCallable fn_webpack_static]>
        (<["url" := VCallable fn_reverse]>
        (<["static" := VCallable fn_static]>
        (<["settings" := VSettings]>
        (<["pluralize" := VCallable fn_pluralize]>
        (<["localtime" := VCallable fn_localtime]>
        (<["get_messages" := VCallable fn_get_messages]>
        (<["env" := VStr (default "dev" (os_environ w !! "ENV"))]>
        (<["crispy" := VCallable fn_render_crispy_form]>
        (<["query_transform" := VCallable fn_query_transform]>
        (<["break_words" := VCallable fn_break_words]> dg))))))))))).
Proof.
  intros Hacc. unfold environment.
  unfold bind at 1. rewrite (GovukFrontendEnvironment_runs _ _ _ _ Hacc).
  unfold alloc at 1. unfold bind at 1. rewrite modify_last.
  unfold bind at 1, os_environ_get at 1. cbn [os_environ].
  unfold bind at 1. rewrite modify_last.
  unfold bind at 1. rewrite modify_last.
  unfold ret. eexists. split; [reflexivity|]. now split.
Qed.

Lemma observe_new (environ : gmap string string) (es : list Environment)
    (e : Environment) (name : string) :
  global {| os_environ := environ; envs := (es ++ [e])%list |}
    (length es) name = globals e !! name /\
  filter {| os_environ := environ; envs := (es ++ [e])%list |}
    (length es) name = filters e !! name.
Proof.
  unfold global, filter. cbn [envs]. rewrite !lookup_last. now split.
Qed.

(** The twelve globals and the filter have the values the source gives
    them, whatever the underlying constructor had under these names:
    [url] is [reverse], [crispy] is [render_crispy_form], and so on. *)
Theorem environment_bindings (df dg : gmap string Value)
    (kwargs : gmap string KwVal) (w : World) :
  accepted kwargs = true ->
  exists (l : loc) (w' : World),
    environment df dg kwargs w = Some (l, w') /\
    filter w' l "localtime" = Some (VCallable fn_localtime) /\
    global w' l "break_words" = Some (VCallable fn_break_words) /\
    global w' l "query_transform" = Some (VCallable fn_query_transform) /\
    global w' l "crispy" = Some (VCallable fn_render_crispy_form) /\
    global w' l "env" = Some (VStr (default "dev" (os_environ w !! "ENV"))) /\
    global w' l "get_messages" = Some (VCallable fn_get_messages) /\
    global w' l "localtime" = Some (VCallable fn_localtime) /\
    global w' l "pluralize" = Some (VCallable fn_pluralize) /\
    global w' l "settings" = Some VSettings /\
    global w' l "static" = Some (VCallable fn_static) /\
    global w' l "url" = Some (VCallable fn_reverse) /\
    global w' l "webpack_static" = Some (VCallable fn_webpack_static) /\
    global w' l "render_bundle" = Some (VPartial fn_render_bundle l).
Proof.
  intros Hacc.
  destruct (environment_tables df dg kwargs w Hacc) as (e & Hrun & Hf & Hg).
  eexists _, _. split; [exact Hrun|].
  pose proof (observe_new (os_environ w) (envs w) e) as Hobs.
  rewrite !(fun n => proj1 (Hobs n)), (proj2 (Hobs "localtime")), Hf, Hg.
  repeat split; now simplify_map_eq.
Qed.

Lemma environment_bindings_witness :
  accepted (∅ : gmap string KwVal) = true /\
  exists (l : loc) (w' : World),
    environment ∅ {[ "url" := VBuiltin "url"; "range" := VBuiltin "range" ]}
      ∅ (fresh_world {[ "ENV" := "uat" ]}) = Some (l, w') /\
    global w' l "url" = Some (VCallable fn_reverse) /\
    global w' l "env" = Some (VStr "uat") /\
    global w' l "render_bundle" = Some (VPartial fn_render_bundle l).
Proof.
  assert (Hacc : accepted (∅ : gmap string KwVal) = true) by reflexivity.
  split; [exact Hacc|].
  destruct (environment_bindings ∅
              {[ "url" := VBuiltin "url"; "range" := VBuiltin "range" ]}
              ∅ (fresh_world {[ "ENV" := "uat" ]}) Hacc)
    as (l & w' & Hrun & H).
  exists l, w'. split; [exact Hrun|]. tauto.
Defined.

(** What [environment] does not touch: a global of the underlying
    constructor whose name is none of the twelve keeps its value, and so
    does every filter but [localtime]. *)
Theorem environment_keeps_other_entries (df dg : gmap string Value)
    (kwargs : gmap string KwVal) (w : World) :
  accepted kwargs = true ->
  exists (l : loc) (w' : World),
    environment df dg kwargs w = Some (l, w') /\
    (forall name : string,
       name ∉ [ "break_words"; "query_transform"; "crispy"; "env";
                "get_messages"; "localtime"; "pluralize"; "settings";
                "static"; "url"; "webpack_static"; "render_bundle" ] ->
       global w' l name = dg !! name) /\
    (forall name : string,
       name <> "localtime" -> filter w' l name = df !! name).
Proof.
  intros Hacc.
  destruct (environment_tables df dg kwargs w Hacc) as (e & Hrun & Hf & Hg).
  eexists _, _. split; [exact Hrun|].
  pose proof (observe_new (os_environ w) (envs w) e) as Hobs.
  split; intros name Hname.
  - rewrite (proj1 (Hobs name)), Hg.
    repeat (apply not_elem_of_cons in Hname as [? Hname]).
    now rewrite !lookup_insert_ne by congruence.
  - rewrite (proj2 (Hobs name)), Hf.
    now rewrite lookup_insert_ne by congruence.
Qed.

Lemma environment_keeps_other_entries_witness :
  accepted (∅ : gmap string KwVal) = true /\
  exists (l : loc) (w' : World),
    environment {[ "upper" := VBuiltin "upper" ]} jinja_globals ∅
      (fresh_world ∅) = Some (l, w') /\
    global w' l "range" = jinja_globals !! "range" /\
    filter w' l "upper"
    = ({[ "upper" := VBuiltin "upper" ]} : gmap string Value) !! "upper".
Proof.
  assert (Hacc : accepted (∅ : gmap string KwVal) = true) by reflexivity.
  split; [exact Hacc|].
  destruct (environment_keeps_other_entries
              {[ "upper" := VBuiltin "upper" ]} jinja_globals ∅
              (fresh_world ∅) Hacc)
    as (l & w' & Hrun & Hg & Hf).
  exists l, w'. split; [exact Hrun|]. split.
  - apply Hg. intros Hin.
    repeat (apply elem_of_cons in Hin as [Hin | Hin]; [discriminate|]).
    now apply elem_of_nil in Hin.
  - apply Hf. discriminate.
Defined.

(** What [environment] leaves alone in the process: the environment
    variables are as before, the environments built earlier are as
    before, and exactly one object is new, the one returned. *)
Theorem environment_frame (df dg : gmap string Value)
    (kwargs : gmap string KwVal) (w : World) :
  accepted kwargs = true ->
  exists (w' : World),
    environment df dg kwargs w = Some (length (envs w), w') /\
    os_environ w' = os_environ w /\
    length (envs w') = S (length (envs w)) /\
    forall l : loc, l < length (envs w) -> envs w' !! l = envs w !! l.
Proof.
  intros Hacc.
  destruct (environment_tables df dg kwargs w Hacc) as (e & Hrun & _).
  eexists. split; [exact Hrun|]. cbn [os_environ envs].
  split; [reflexivity|]. split.
  - rewrite length_app. cbn. lia.
  - intros l Hl. now apply lookup_app_l.
Qed.

Lemma environment_frame_witness :
  accepted (∅ : gmap string KwVal) = true /\
  exists (w' : World),
    environment ∅ jinja_globals ∅ (fresh_world {[ "ENV" := "uat" ]})
    = Some (0, w') /\
    os_environ w' = {[ "ENV" := "uat" ]} /\
    length (envs w') = 1.
Proof.
  assert (Hacc : accepted (∅ : gmap string KwVal) = true) by reflexivity.
  split; [exact Hacc|].
  destruct (environment_frame ∅ jinja_globals ∅
              (fresh_world {[ "ENV" := "uat" ]}) Hacc)
    as (w' & Hrun & Hos & Hlen & _).
  exists w'. split; [exact Hrun|]. split; [exact Hos | exact Hlen].
Defined.

(** Each environment's [render_bundle] is bound to that environment's
    own table of globals: of two environments built one after the other,
    neither refers to the other's. *)
Theorem render_bundle_own_globals (df dg : gmap string Value)
    (kwargs : gmap string KwVal) (w0 : World)
    (environ' : gmap string string) :
  accepted kwargs = true ->
  exists (l1 l2 : loc) (w1 w2 : World),
    environment df dg kwargs w0 = Some (l1, w1) /\
    environment df dg kwargs {| os_environ := environ'; envs := envs w1 |}
    = Some (l2, w2) /\
    l1 <> l2 /\
    global w2 l1 "render_bundle" = Some (VPartial fn_render_bundle l1) /\
    global w2 l2 "render_bundle" = Some (VPartial fn_render_bundle l2).
Proof.
  intros Hacc.
  destruct (environment_tables df dg kwargs w0 Hacc) as (e1 & Hrun1 & _ & Hg1).
  destruct (environment_tables df dg kwargs
              {| os_environ := environ';
                 envs := (envs w0 ++ [e1])%list |} Hacc)
    as (e2 & Hrun2 & _ & Hg2).
  cbn [envs os_environ] in Hrun2, Hg2.
  eexists _, _, _, _. split; [exact Hrun1|]. cbn [envs].
  split; [exact Hrun2|].
  split; [rewrite length_app; simpl; lia|].
  unfold global. cbn [envs].
  rewrite lookup_before_last, lookup_last. cbn.
  rewrite Hg1, Hg2. split; now simplify_map_eq.
Qed.

Lemma render_bundle_own_globals_witness :
  accepted (∅ : gmap string KwVal) = true /\
  exists (l1 l2 : loc) (w1 w2 : World),
    environment ∅ jinja_globals ∅ (fresh_world ∅) = Some (l1, w1) /\
    environment ∅ jinja_globals ∅ {| os_environ := ∅; envs := envs w1 |}
    = Some (l2, w2) /\
    l1 <> l2 /\
    global w2 l1 "render_bundle" = Some (VPartial fn_render_bundle l1) /\
    global w2 l2 "render_bundle" = Some (VPartial fn_render_bundle l2).
Proof.
  split; [reflexivity|].
  apply (render_bundle_own_globals ∅ jinja_globals). reflexivity.
Defined.

End EnvMore.
